(** * POLIPHONE: channel responses, impulse responses and alignment errors

    A shallow embedding of [extract_IR.py] and
    [compute_channel_response.py].

    Samples are numpy floats.  They are modelled in exact arithmetic: a
    finite sample is a real number, and the three special values of
    IEEE 754 ([inf], [-inf], [nan]) are kept as constructors with the
    rules numpy applies to them (no exception is raised by a division by
    zero, only a warning).  Rounding and overflow of finite values are
    not modelled.  Lengths, indices and shifts are integers. *)

From Stdlib Require Import List ZArith QArith Qround Reals Lra Lia Bool.
From Stdlib Require Import Ascii.
From Stdlib Require String DecimalString DecimalZ DecimalPos.
Import ListNotations.

Set Implicit Arguments.

Local Open Scope nat_scope.

(** ** Numbers: reals extended with the IEEE special values *)

Module Num.

Inductive num : Type :=
| Fin (x : R)
| PInf
| NInf
| NaN.

Definition zero : num := Fin 0.

Definition is_nan (a : num) : bool :=
  match a with NaN => true | _ => false end.


(** The sign of a real: [Lt] negative, [Eq] zero, [Gt] positive. *)
Definition Rsign (x : R) : comparison :=
  match total_order_T x 0 with
  | inleft (left _) => Lt
  | inleft (right _) => Eq
  | inright _ => Gt
  end.

Definition neg (a : num) : num :=
  match a with
  | Fin x => Fin (- x)
  | PInf => NInf
  | NInf => PInf
  | NaN => NaN
  end.

Definition add (a b : num) : num :=
  match a, b with
  | NaN, _ | _, NaN => NaN
  | Fin x, Fin y => Fin (x + y)
  | PInf, NInf | NInf, PInf => NaN
  | PInf, _ | _, PInf => PInf
  | NInf, _ | _, NInf => NInf
  end.

Definition sub (a b : num) : num := add a (neg b).

(** An infinity with the sign of [s], or [nan] for a zero factor. *)
Definition signed_inf (s : comparison) : num :=
  match s with Gt => PInf | Lt => NInf | Eq => NaN end.

Definition mul (a b : num) : num :=
  match a, b with
  | NaN, _ | _, NaN => NaN
  | Fin x, Fin y => Fin (x * y)
  | Fin x, PInf | PInf, Fin x => signed_inf (Rsign x)
  | Fin x, NInf | NInf, Fin x => signed_inf (CompOpp (Rsign x))
  | PInf, PInf | NInf, NInf => PInf
  | PInf, NInf | NInf, PInf => NaN
  end.

(** Division as numpy performs it: [x / 0] is an infinity with the sign
    of [x] and [0 / 0] is [nan].  Every zero divisor of this program is a
    sum or a mean of squares, hence a positive zero. *)
Definition div (a b : num) : num :=
  match a, b with
  | NaN, _ | _, NaN => NaN
  | Fin x, Fin y =>
      match Rsign y with
      | Eq => signed_inf (Rsign x)
      | _ => Fin (x / y)
      end
  | Fin _, (PInf | NInf) => Fin 0
  | PInf, Fin y => match Rsign y with Lt => NInf | _ => PInf end
  | NInf, Fin y => match Rsign y with Lt => PInf | _ => NInf end
  | (PInf | NInf), (PInf | NInf) => NaN
  end.

(** [x ** 2] *)
Definition sq (a : num) : num := mul a a.

(** [np.sqrt] *)
Definition nsqrt (a : num) : num :=
  match a with
  | Fin x => match Rsign x with Lt => NaN | _ => Fin (sqrt x) end
  | PInf => PInf
  | NInf => NaN
  | NaN => NaN
  end.

(** [np.log10] *)
Definition log10 (a : num) : num :=
  match a with
  | Fin x =>
      match Rsign x with
      | Gt => Fin (ln x / ln 10)
      | Eq => NInf
      | Lt => NaN
      end
  | PInf => PInf
  | NInf => NaN
  | NaN => NaN
  end.

(** [a > b]; every comparison with [nan] is false. *)
Definition gtb (a b : num) : bool :=
  match a, b with
  | NaN, _ | _, NaN => false
  | Fin x, Fin y => match Rsign (x - y) with Gt => true | _ => false end
  | PInf, PInf => false
  | PInf, _ => true
  | _, NInf => match a with NInf => false | _ => true end
  | _, _ => false
  end.

(** [np.sum] of a one-dimensional array *)
Definition sum (l : list num) : num := fold_left add l zero.

(** [len] as a float *)
Definition of_nat (n : nat) : num := Fin (INR n).

(** [np.mean]: the sum divided by the number of items; [nan] for an
    empty array. *)
Definition mean (l : list num) : num := div (sum l) (of_nat (length l)).

End Num.

Import Num.

(** ** Python and numpy helpers *)

Module Py.

(** Exceptions the modelled code can raise. *)
Inductive exception : Type :=
| ZeroDivisionError
| IndexError
| ValueError.

Inductive result (A : Type) : Type :=
| Ok (a : A)
| Raise (e : exception).

Arguments Ok {A} a.
Arguments Raise {A} e.

Definition bind {A B : Type} (r : result A) (k : A -> result B) : result B :=
  match r with
  | Ok a => k a
  | Raise e => Raise e
  end.

Notation "x <- r ;; k" := (bind r (fun x => k))
  (at level 61, r at next level, right associativity).

(** [int(q)]: truncation toward zero. *)
Definition int (q : Q) : Z := Z.quot (Qnum q) (Zpos (Qden q)).


(** A float times an integer, as in [duration * sample_rate]. *)
Definition scale (q : Q) (k : Z) : Q := (q * inject_Z k)%Q.

(** The position a slice bound denotes in a sequence of [n] items:
    negative bounds count from the end, and both are clamped. *)
Definition bound (n : nat) (i : Z) : nat :=
  if (i <? 0)%Z then Z.to_nat (i + Z.of_nat n) else Nat.min (Z.to_nat i) n.

(** [l[start:stop]] *)
Definition slice {A : Type} (l : list A) (start stop : Z) : list A :=
  let a := bound (length l) start in
  let b := bound (length l) stop in
  firstn (b - a) (skipn a l).

(** [l[start:]] *)
Definition slice_from {A : Type} (l : list A) (start : Z) : list A :=
  skipn (bound (length l) start) l.

(** [l[:stop]] *)
Definition slice_to {A : Type} (l : list A) (stop : Z) : list A :=
  firstn (bound (length l) stop) l.

(** [range(n)] *)
Definition range (n : Z) : list Z := map Z.of_nat (seq 0 (Z.to_nat n)).

(** [np.arange(a, b)] *)
Definition arange (a b : Z) : list Z :=
  map (fun k => (a + Z.of_nat k)%Z) (seq 0 (Z.to_nat (b - a))).

(** [np.roll(l, shift)] on a flat array: the items move [shift] places
    to the right and those pushed out re-enter at the front. *)
Definition roll {A : Type} (l : list A) (shift : Z) : list A :=
  match length l with
  | O => l
  | S _ as n =>
      let k := Z.to_nat (shift mod Z.of_nat n) in
      skipn (n - k) l ++ firstn (n - k) l
  end.

(** Element-wise combination of two arrays of one length. *)
Fixpoint zip_with {A B C : Type} (f : A -> B -> C)
  (l : list A) (m : list B) : list C :=
  match l, m with
  | a :: l', b :: m' => f a b :: zip_with f l' m'
  | _, _ => []
  end.

(** The order [np.argmin] and [np.min] search by: [nan] comes before
    every number. *)
Definition before (a b : num) : bool :=
  match a, b with
  | NaN, NaN => false
  | NaN, _ => true
  | _, NaN => false
  | _, _ => Num.gtb b a
  end.

(** The scan of [np.argmin]: [i] is the index of the best item [best]
    seen so far, [j] the index of the head of what is left to scan. *)
Fixpoint argmin_scan (i : nat) (best : num) (j : nat) (l : list num) : nat * num :=
  match l with
  | [] => (i, best)
  | x :: l' =>
      if before x best then argmin_scan j x (S j) l'
      else argmin_scan i best (S j) l'
  end.

(** [np.argmin]: the first index of the least item. *)
Definition argmin (l : list num) : result nat :=
  match l with
  | [] => Raise ValueError
  | x :: l' => Ok (fst (argmin_scan 0 x 1 l'))
  end.

(** [np.min] ([np.amin]) *)
Definition amin (l : list num) : result num :=
  match l with
  | [] => Raise ValueError
  | x :: l' => Ok (snd (argmin_scan 0 x 1 l'))
  end.

(** [l[i]] for an index that is not negative. *)
Definition item {A : Type} (l : list A) (i : nat) : result A :=
  match nth_error l i with
  | Some a => Ok a
  | None => Raise IndexError
  end.

End Py.

Import Py.

(** ** Two-dimensional arrays

    A numpy array of two dimensions: its shape and its items in row-major
    order, which is the order [np.roll] without an axis works on. *)

Module Array2.

Record array2 (A : Type) : Type := Build {
  shape0 : nat;
  shape1 : nat;
  items : list A
}.

Arguments Build {A} shape0 shape1 items.

Definition wf {A : Type} (a : array2 A) : Prop :=
  length (items a) = shape0 a * shape1 a.

(** Row [i]: [a[i]] *)
Definition row {A : Type} (a : array2 A) (i : nat) : list A :=
  firstn (shape1 a) (skipn (i * shape1 a) (items a)).

Definition rows {A : Type} (a : array2 A) : list (list A) :=
  map (row a) (seq 0 (shape0 a)).

(** The array whose rows are [rs], each of [n] items. *)
Definition of_rows {A : Type} (n : nat) (rs : list (list A)) : array2 A :=
  Build (length rs) n (concat rs).

(** [a.T] *)
Definition transpose {A : Type} (d : A) (a : array2 A) : array2 A :=
  Build (shape1 a) (shape0 a)
    (flat_map
       (fun j => map (fun i => nth (i * shape1 a + j) (items a) d)
                     (seq 0 (shape0 a)))
       (seq 0 (shape1 a))).

(** [np.roll(a, shift)]: the array is flattened, rolled and given its
    shape back. *)
Definition roll {A : Type} (a : array2 A) (shift : Z) : array2 A :=
  Build (shape0 a) (shape1 a) (Py.roll (items a) shift).

(** [a[k:]] for [0 <= k]: the rows from the [k]-th on. *)
Definition rows_from {A : Type} (a : array2 A) (k : nat) : array2 A :=
  let k := Nat.min k (shape0 a) in
  Build (shape0 a - k) (shape1 a) (skipn (k * shape1 a) (items a)).

(** [a[:k]] for [0 <= k]: the first [k] rows. *)
Definition rows_to {A : Type} (a : array2 A) (k : nat) : array2 A :=
  let k := Nat.min k (shape0 a) in
  Build k (shape1 a) (firstn (k * shape1 a) (items a)).

(** [np.concatenate((a, b))] along the first axis, for two arrays whose
    rows have one length. *)
Definition concatenate {A : Type} (a b : array2 A) : array2 A :=
  Build (shape0 a + shape0 b) (shape1 a) (items a ++ items b).

(** [len(a)] *)
Definition len {A : Type} (a : array2 A) : nat := shape0 a.

End Array2.

Import Array2.

(** ** extract_IR.py *)

Module ExtractIR.

(** [linear_rms = 10 ** (rms_level / 10.0)] *)
Definition linear_rms (rms_level : R) : R := Rpower 10 (rms_level / 10).

(** [np.sum(signal ** 2)] *)
Definition energy (signal : list num) : num := Num.sum (map sq signal).

(** [scaling_factor =
     np.sqrt((len(signal) * linear_rms ** 2) / np.sum(signal ** 2))] *)
Definition scaling_factor (signal : list num) (rms_level : R) : num :=
  nsqrt (div (mul (of_nat (length signal)) (sq (Fin (linear_rms rms_level))))
             (energy signal)).

Definition normalize (signal : list num) (rms_level : R) : list num :=
  map (fun x => mul x (scaling_factor signal rms_level)) signal.

(** [np.mean((signal - reference_signal) ** 2)] *)
Definition squared_error (signal reference_signal : list num) : num :=
  mean (map sq (zip_with sub signal reference_signal)).

(** [np.mean((reference_signal - np.mean(reference_signal)) ** 2)] *)
Definition variance (reference_signal : list num) : num :=
  mean (map sq (map (fun x => sub x (mean reference_signal)) reference_signal)).

(** The mismatch branch returns the integer [0], which numpy reads as
    the float [0.0] once it is in the array of errors. *)
Definition nmse_error (signal reference_signal : list num) : num :=
  if negb (length signal =? length reference_signal) then Fin 0
  else div (squared_error signal reference_signal) (variance reference_signal).

(** An array of one or of two dimensions. *)
Inductive ndarray (A : Type) : Type :=
| Dim1 (x : list A)
| Dim2 (a : array2 A).

Arguments Dim1 {A} x.
Arguments Dim2 {A} a.

Section Deconvolution.

(** Complex numbers and the transforms of [scipy.fft], which the
    program calls as a library. *)
Variable cplx : Type.
Variable cmul : cplx -> cplx -> cplx.
Variable creal : cplx -> num.
(** [scipy.fft.fft(x, n)]: [x] cut or padded with zeros to [n] items,
    then transformed. *)
Variable fft : list num -> nat -> list cplx.
Variable ifft : list cplx -> list cplx.

(** [sweep_response.T] when there is more than one dimension *)
Definition channel_major (sweep_response : ndarray num) : ndarray num :=
  match sweep_response with
  | Dim1 x => Dim1 x
  | Dim2 a => Dim2 (transpose Num.zero a)
  end.

(** [scipy.fft.fft(sweep_response, fft_size)], along the last axis *)
Definition fft_last_axis (s : ndarray num) (fft_size : nat) : ndarray cplx :=
  match s with
  | Dim1 x => Dim1 (fft x fft_size)
  | Dim2 a => Dim2 (of_rows fft_size (map (fun r => fft r fft_size) (rows a)))
  end.

(** [inv_sweep_fft * sweep_fft], with the broadcasting of numpy over the
    first axis; the last axis has [fft_size] items on both sides. *)
Definition multiply (inv_sweep_fft : array2 cplx) (sweep_fft : ndarray cplx)
  : result (array2 cplx) :=
  let n := shape1 inv_sweep_fft in
  match sweep_fft with
  | Dim1 x =>
      Ok (of_rows n (map (fun r => zip_with cmul r x) (rows inv_sweep_fft)))
  | Dim2 b =>
      if shape0 inv_sweep_fft =? shape0 b then
        Ok (of_rows n (zip_with (zip_with cmul) (rows inv_sweep_fft) (rows b)))
      else if shape0 b =? 1 then
        Ok (of_rows n (map (fun r => zip_with cmul r (row b 0))
                           (rows inv_sweep_fft)))
      else if shape0 inv_sweep_fft =? 1 then
        Ok (of_rows n (map (fun r => zip_with cmul (row inv_sweep_fft 0) r)
                           (rows b)))
      else Raise ValueError
  end.

(** [np.real(scipy.fft.ifft(...))], along the last axis *)
Definition real_ifft (a : array2 cplx) : array2 num :=
  of_rows (shape1 a) (map (fun r => map creal (ifft r)) (rows a)).

(** The result of the deconvolution, before it is rolled: *)
Definition deconvolve (sweep_response : ndarray num)
  (inv_sweep_fft : array2 cplx) : result (array2 num) :=
  let sweep_response := channel_major sweep_response in
  let fft_size := shape1 inv_sweep_fft in
  let sweep_fft := fft_last_axis sweep_response fft_size in
  prod <- multiply inv_sweep_fft sweep_fft ;;
  Ok (real_ifft prod).

(** The array given to [np.roll], and the shift it is rolled by. *)
Definition centered (ir : array2 num) : array2 num :=
  Array2.roll (transpose Num.zero ir) (Z.of_nat (shape1 ir / 2)).

Definition extract_ir_sweep (sweep_response : ndarray num)
  (inv_sweep_fft : array2 cplx) : result (array2 num * array2 num) :=
  ir <- deconvolve sweep_response inv_sweep_fft ;;
  let ir := centered ir in
  let ir_lin := rows_from ir (len ir / 2) in
  let ir_non_lin := rows_to ir (len ir / 2) in
  Ok (ir_lin, ir_non_lin).

End Deconvolution.

(** [np.arange(-200, 200)] *)
Definition shifts : list Z := arange (-200) 200.

(** The body of the loop over the shifts: the error of each shift. *)
Definition err_list (win_device win_reconstructed : list num) : list num :=
  map (fun shift =>
         nmse_error (slice win_reconstructed (200 + shift) (-200 + shift))
                    (slice win_device 200 (-200)))
      shifts.

(** [10 * np.log10(err_list)] *)
Definition errors (win_device win_reconstructed : list num) : list num :=
  map (fun e => mul (Fin 10) (log10 e)) (err_list win_device win_reconstructed).

(** One round of the loop over the windows: what is appended to
    [err_min_all] and to [err_pos_all]. *)
Definition analyze_window (win_device win_reconstructed : list num)
  : result (num * Z) :=
  let errors := errors win_device win_reconstructed in
  err_min <- amin errors ;;
  pos <- argmin errors ;;
  err_pos <- item shifts pos ;;
  Ok (err_min, err_pos).

(** The two signals after the margin is taken off. *)
Definition speech_device_mod (speech_device : list num) (margin : Z) : list num :=
  slice_from speech_device margin.

Definition speech_reconstructed_mod (speech_reconstructed : list num)
  (margin : Z) : list num :=
  slice_to speech_reconstructed (- margin).

Fixpoint collect {A : Type} (l : list (result A)) : result (list A) :=
  match l with
  | [] => Ok []
  | r :: l' => a <- r ;; rest <- collect l' ;; Ok (a :: rest)
  end.

(** The loop over the windows. *)
Definition analyze_windows (device_mod reconstructed_mod : list num)
  (win_len num_windows : Z) : result (list (num * Z)) :=
  collect
    (map (fun i =>
            let start := (i * win_len)%Z in
            let stop := ((i + 1) * win_len)%Z in
            analyze_window (slice device_mod start stop)
                           (slice reconstructed_mod start stop))
         (range num_windows)).

(** [(err_pos_all[-1] - err_pos_all[0]) / len(err_pos_all)] *)
Definition slope (err_pos_all : list Z) : result Q :=
  match err_pos_all with
  | [] => Raise IndexError
  | first :: _ =>
      Ok (Qmake (last err_pos_all first - first)
                (Pos.of_nat (length err_pos_all)))
  end.

Section Analysis.

(** [np.convolve(a, v, mode='same')], a library call, which raises
    [ValueError] on an empty array *)
Variable convolve_same : list num -> list num -> result (list num).

Variable cplx : Type.
Variable cmul : cplx -> cplx -> cplx.
Variable creal : cplx -> num.
Variable fft : list num -> nat -> list cplx.
Variable ifft : list cplx -> list cplx.

(** [ir_lin[3000:6000, 0]] *)
Definition ir_slice (ir_lin : array2 num) : result (list num) :=
  if shape1 ir_lin =? 0 then Raise IndexError
  else Ok (map (fun r => nth 0 r Num.zero) (slice (rows ir_lin) 3000 6000)).

(** [process_device_signals] from the three signals that [librosa.load]
    returns and the sample rate [fs] of the sweep; plotting and saving
    are left out. *)
Definition process_device_signals
  (sweep_signal : list num) (fs : Z)
  (speech_original speech_device : list num)
  (inv_sweep_fft : array2 cplx) (margin : Z) (window_duration : Q)
  : result (list num * Q) :=
  irs <- extract_ir_sweep cmul creal fft ifft (Dim1 sweep_signal) inv_sweep_fft ;;
  let ir_lin := fst irs in
  ir <- ir_slice ir_lin ;;
  speech_reconstructed <- convolve_same speech_original ir ;;
  let device_mod := speech_device_mod speech_device margin in
  let reconstructed_mod := speech_reconstructed_mod speech_reconstructed margin in
  let win_len := Py.int (scale window_duration fs) in
  if (win_len =? 0)%Z then Raise ZeroDivisionError
  else
    let num_windows := (Z.of_nat (length device_mod) / win_len)%Z in
    per_window <- analyze_windows device_mod reconstructed_mod win_len num_windows ;;
    let err_min_all := map fst per_window in
    let err_pos_all := map snd per_window in
    slope <- slope err_pos_all ;;
    Ok (err_min_all, slope).

End Analysis.

End ExtractIR.

(** ** compute_channel_response.py *)

Module ChannelResponse.

Definition normalize_audio (sig : list num) (rms_level : R) : list num :=
  let r := Rpower 10 (rms_level / 10) in
  let a := nsqrt (div (mul (of_nat (length sig)) (sq (Fin r)))
                      (Num.sum (map sq sig))) in
  let y := map (fun x => mul x a) sig in
  y.

(** [log_spectrogram[log_spectrogram > threshold] = np.nan], on one
    value *)
Definition apply_threshold (threshold v : num) : num :=
  if Num.gtb v threshold then NaN else v.

(** [np.nanmean] of one row: the mean of the values that are not [nan],
    and [nan] when there is none. *)
Definition nanmean (l : list num) : num :=
  let kept := filter (fun v => negb (is_nan v)) l in
  div (Num.sum kept) (of_nat (length kept)).

(** [np.nanmean(a, axis=1)] *)
Definition nanmean_axis1 (a : array2 num) : list num :=
  map nanmean (rows a).

(** The window parameters. *)
Definition window_samples (signal_duration : Q) (sample_rate : Z) : Z :=
  Py.int (scale signal_duration sample_rate).

Definition overlap_samples (overlap_fraction : Q) (sample_rate : Z) : Z :=
  Py.int (scale overlap_fraction sample_rate).

Definition step_size (signal_duration overlap_fraction : Q) (sample_rate : Z) : Z :=
  (window_samples signal_duration sample_rate
   - overlap_samples overlap_fraction sample_rate)%Z.

(** [num_windows = (len(signal) - overlap_samples) // step_size] *)
Definition num_windows (len_signal : nat)
  (signal_duration overlap_fraction : Q) (sample_rate : Z) : result Z :=
  let step := step_size signal_duration overlap_fraction sample_rate in
  if (step =? 0)%Z then Raise ZeroDivisionError
  else Ok ((Z.of_nat len_signal - overlap_samples overlap_fraction sample_rate)
           / step)%Z.

(** [signal[start:end]] of the window [window_idx] *)
Definition windowed_signal (signal : list num)
  (signal_duration overlap_fraction : Q) (sample_rate : Z) (window_idx : Z)
  : list num :=
  let start :=
    (window_idx * step_size signal_duration overlap_fraction sample_rate)%Z in
  let stop := (start + window_samples signal_duration sample_rate)%Z in
  slice signal start stop.

Section Extractor.

(** Library calls: [librosa.effects.preemphasis], [librosa.stft] with a
    Hamming window, and [np.abs] on complex numbers. *)
Variable cplx : Type.
Variable cabs : cplx -> num.
Variable preemphasis : list num -> list num.
Variable stft : list num -> forall n_fft hop_length win_length : nat, array2 cplx.

(** [20 * np.log10(1e-9 + np.abs(stft_result))] *)
Definition log_spectrogram (stft_result : array2 cplx) : array2 num :=
  Array2.Build (shape0 stft_result) (shape1 stft_result)
    (map (fun x => mul (Fin 20) (log10 (add (Fin (1 / 10 ^ 9)) (cabs x))))
         (items stft_result)).

Definition thresholded (threshold : num) (a : array2 num) : array2 num :=
  Array2.Build (shape0 a) (shape1 a) (map (apply_threshold threshold) (items a)).

(** The channel response of one window. *)
Definition channel_response (windowed : list num) (threshold : num)
  (n_fft hop_length win_length : nat) : list num :=
  let stft_result := stft windowed n_fft hop_length win_length in
  let log_spectrogram := thresholded threshold (log_spectrogram stft_result) in
  nanmean_axis1 log_spectrogram.


End Extractor.

End ChannelResponse.

(** ** The stages of process_device_signals

    The impulse response the speech is convolved with, and the analysis
    of the two speech signals that follows the convolution. *)

Module Stages.

Import ExtractIR.

Section Stages.

Variable cplx : Type.
Variable cmul : cplx -> cplx -> cplx.
Variable creal : cplx -> num.
Variable fft : list num -> nat -> list cplx.
Variable ifft : list cplx -> list cplx.

(** [ir_lin[3000:6000, 0]] for the [ir_lin] extracted from the sweep *)
Definition linear_ir (sweep_signal : list num) (inv_sweep_fft : array2 cplx)
  : result (list num) :=
  irs <- extract_ir_sweep cmul creal fft ifft (Dim1 sweep_signal) inv_sweep_fft ;;
  ir_slice (fst irs).

End Stages.

(** What [process_device_signals] does once the reconstructed speech is
    there: the margin, the windows, the search and the slope. *)
Definition alignment (speech_device speech_reconstructed : list num)
  (fs margin : Z) (window_duration : Q) : result (list num * Q) :=
  let device_mod := speech_device_mod speech_device margin in
  let reconstructed_mod := speech_reconstructed_mod speech_reconstructed margin in
  let win_len := Py.int (scale window_duration fs) in
  if (win_len =? 0)%Z then Raise ZeroDivisionError
  else
    let num_windows := (Z.of_nat (length device_mod) / win_len)%Z in
    per_window <- analyze_windows device_mod reconstructed_mod win_len num_windows ;;
    let err_min_all := map fst per_window in
    let err_pos_all := map snd per_window in
    slope <- slope err_pos_all ;;
    Ok (err_min_all, slope).

End Stages.

(** ** The names of the saved arrays

    Paths are strings of characters; [os.path] is the one of POSIX. *)

Module Naming.

Local Open Scope char_scope.

Definition path : Type := list ascii.

(** [s.split(c)] for a separator of one character *)
Fixpoint split (c : ascii) (s : path) : list path :=
  match s with
  | [] => [[]]
  | a :: s' =>
      if Ascii.eqb a c then [] :: split c s'
      else
        match split c s' with
        | [] => [[a]]
        | w :: ws => (a :: w) :: ws
        end
  end.

(** [l[-k]] for [k >= 1] *)
Definition item_from_end {A : Type} (l : list A) (k : nat) : result A :=
  if (length l <? k)%nat then Raise IndexError else item l (length l - k).

(** [signal_path.split('/')[-3]] *)
Definition device (signal_path : path) : result path :=
  item_from_end (split "/" signal_path) 3.

(** [os.path.basename(p)]: what follows the last slash *)
Definition basename (p : path) : path := last (split "/" p) [].

(** [os.path.basename(signal_path).split('.')[0]] *)
Definition speaker (signal_path : path) : path :=
  hd [] (split "." (basename signal_path)).

(** [str(n)] for an integer *)
Definition str (n : Z) : path :=
  String.list_ascii_of_string (DecimalString.NilZero.string_of_int (Z.to_int n)).

(** [f'{device}_{speaker}_win_{window_idx}.npy'] *)
Definition file_name (device speaker : path) (window_idx : Z) : path :=
  device ++ ["_"] ++ speaker ++ ["_"; "w"; "i"; "n"; "_"] ++ str window_idx
  ++ ["."; "n"; "p"; "y"].

(** [p.endswith('/')] *)
Definition ends_with_slash (p : path) : bool :=
  match rev p with
  | c :: _ => Ascii.eqb c "/"
  | [] => false
  end.

(** [os.path.join(a, b)] *)
Definition join (a b : path) : path :=
  match b with
  | c :: _ =>
      if Ascii.eqb c "/" then b
      else
        match a with
        | [] => a ++ b
        | _ => if ends_with_slash a then a ++ b else a ++ ["/"] ++ b
        end
  | [] =>
      match a with
      | [] => a ++ b
      | _ => if ends_with_slash a then a ++ b else a ++ ["/"] ++ b
      end
  end.

(** The path an array is saved under. *)
Definition save_path (output_folder signal_path : path) (window_idx : Z)
  : result path :=
  device <- device signal_path ;;
  let speaker := speaker signal_path in
  Ok (join output_folder (file_name device speaker window_idx)).

Section Files.

Import ChannelResponse.

Variable cplx : Type.
Variable cabs : cplx -> num.
Variable preemphasis : list num -> list num.
Variable stft : list num -> forall n_fft hop_length win_length : nat, array2 cplx.


End Files.

End Naming.

(** ** nan_helper *)

Module NanHelper.

(** [mask.nonzero()[0]]: the indices at which the mask holds, from the
    index [i] of its first item on *)
Fixpoint nonzero_from (i : nat) (mask : list bool) : list nat :=
  match mask with
  | [] => []
  | b :: mask' =>
      if b then i :: nonzero_from (S i) mask' else nonzero_from (S i) mask'
  end.

Definition nonzero (mask : list bool) : list nat := nonzero_from 0 mask.

(** [array[mask]] *)
Fixpoint select {A : Type} (array : list A) (mask : list bool) : list A :=
  match array, mask with
  | a :: array', b :: mask' =>
      if b then a :: select array' mask' else select array' mask'
  | _, _ => []
  end.

(** The values put, in their order, where the mask holds. *)
Fixpoint fill (array : list num) (mask : list bool) (values : list num)
  : list num :=
  match array, mask with
  | a :: array', b :: mask' =>
      if b then
        match values with
        | v :: values' => v :: fill array' mask' values'
        | [] => a :: fill array' mask' []
        end
      else a :: fill array' mask' values
  | _, _ => array
  end.

(** [array[mask] = values]: as many values as the mask holds, or one
    value for all of them. *)
Definition assign_masked (array : list num) (mask : list bool)
  (values : list num) : result (list num) :=
  let count := length (filter (fun b : bool => b) mask) in
  if length values =? count then Ok (fill array mask values)
  else if length values =? 1
       then Ok (fill array mask (repeat (hd NaN values) count))
       else Raise ValueError.

Section Interp.

(** [np.interp(x, xp, fp)], a library call *)
Variable interp : list nat -> list nat -> list num -> result (list num).

Definition nan_helper (array : list num) : result (list num) :=
  let nan_indices := map is_nan array in
  let not_nan_indices := map negb nan_indices in
  values <- interp (nonzero nan_indices) (nonzero not_nan_indices)
                   (select array not_nan_indices) ;;
  assign_masked array nan_indices values.

End Interp.

End NanHelper.

(** ** Stand-ins for the library calls

    Instances of the parameters that stand for library calls, with which
    the hypotheses on them are shown to be satisfiable: they return
    arrays of the lengths the libraries document, and nothing more is
    asked of them. *)

Module Sample.

(** For [scipy.fft.fft(x, n)]: the samples cut or padded with zeros to
    [n] items, which stand for their transform. *)
Definition fft (x : list num) (n : nat) : list num :=
  firstn n (x ++ repeat (Fin 0) n).

Definition ifft (v : list num) : list num := v.

(** The product with a spectrum of ones. *)
Definition cmul (a b : num) : num := b.

Definition creal (a : num) : num := a.

(** The first array, for [np.convolve(a, v, mode='same')], which has
    the length of the longer array. *)
Definition convolve_same (a v : list num) : result (list num) := Ok a.

(** An inverse sweep spectrum of one channel and [n] bins. *)
Definition inv_sweep_fft (n : nat) : array2 num :=
  Array2.Build 1 n (repeat (Fin 1) n).

(** For [np.interp(x, xp, fp)]: a zero for each point of [x]. *)
Definition interp (x xp : list nat) (fp : list num) : result (list num) :=
  Ok (map (fun _ => Fin 0) x).

End Sample.

(** ** Reference formulas

    The formulas of the specification over the reals, against which the
    embedding of the code is compared. *)

Module Reference.

Local Open Scope R_scope.

(** The sum of a list of reals. *)
Definition Rsum (l : list R) : R := fold_right Rplus 0 l.

(** The mean of a list of reals. *)
Definition Rmean (l : list R) : R := Rsum l / INR (length l).

(** The sum of the squared samples. *)
Definition sum_squares (l : list R) : R := Rsum (map (fun x => x * x) l).

(** The root mean square of a signal. *)
Definition rms (l : list R) : R := sqrt (sum_squares l / INR (length l)).

(** The ratio under the square root of the scale factor, for the
    target [r = 10^(level/10)]: N r^2 / sum of squares. *)
Definition ratio (xs : list R) (rms_level : R) : R :=
  INR (length xs) * Rpower 10 (rms_level / 10) ^ 2 / sum_squares xs.

(** The differences of two signals, sample by sample. *)
Definition differences (l m : list R) : list R := zip_with Rminus l m.

(** mean((signal - reference)^2) *)
Definition mean_squared_error (signal reference : list R) : R :=
  Rmean (map (fun x => x * x) (differences signal reference)).

(** mean((reference - mean(reference))^2) *)
Definition mean_squared_deviation (reference : list R) : R :=
  Rmean (map (fun x => (x - Rmean reference) * (x - Rmean reference)) reference).

(** The values of a frequency bin that are not strictly greater than
    the threshold, in their order. *)
Definition kept_values (threshold : R) (vs : list R) : list R :=
  filter (fun v => if Rle_dec v threshold then true else false) vs.

(** The order of the decibel values in which [nan] is the least value
    and the others follow the order of the extended reals: [a] is not
    after [b]. *)
Definition not_after (a b : num) : Prop := before b a = false.

End Reference.

Import Reference.

Module PathReference.

Import Naming.

Local Open Scope char_scope.

(** The output folder as the start of the paths in it: with a slash at
    its end, unless it is empty. *)
Definition folder_prefix (output_folder : path) : path :=
  match output_folder with
  | [] => []
  | _ => if ends_with_slash output_folder then output_folder
         else output_folder ++ ["/"]
  end.

(** The number of slashes of a path. *)
Definition slashes (p : path) : nat := count_occ ascii_dec p "/".

End PathReference.

Import PathReference.

(** * Properties *)

Unset Implicit Arguments.

(** ** Facts about the numbers *)

Section NumFacts.

Local Open Scope R_scope.

Lemma Rsign_pos (x : R) : 0 < x -> Rsign x = Gt.
Proof.
  intros H. unfold Rsign.
  destruct (total_order_T x 0) as [[Hlt | Heq] | Hgt]; try reflexivity; lra.
Qed.

Lemma Rsign_zero : Rsign 0 = Eq.
Proof.
  unfold Rsign.
  destruct (total_order_T 0 0) as [[Hlt | Heq] | Hgt]; try reflexivity; lra.
Qed.


Lemma fold_add_Fin (l : list R) (acc : R) :
  fold_left add (map Fin l) (Fin acc) = Fin (acc + Rsum l).
Proof.
  revert acc. induction l as [| x l IH]; intros acc; simpl.
  - f_equal. lra.
  - rewrite IH. f_equal. lra.
Qed.

Lemma sum_Fin (l : list R) : Num.sum (map Fin l) = Fin (Rsum l).
Proof.
  unfold Num.sum, zero. rewrite fold_add_Fin. f_equal. lra.
Qed.

Lemma map_sq_Fin (l : list R) :
  map sq (map Fin l) = map Fin (map (fun x => x * x) l).
Proof. rewrite !map_map. reflexivity. Qed.

Lemma Rsum_scaled (a : R) (l : list R) :
  sum_squares (map (fun x => x * a) l) = a * a * sum_squares l.
Proof.
  unfold sum_squares. induction l as [| x l IH]; simpl.
  - lra.
  - rewrite IH. lra.
Qed.

Lemma Rsum_repeat (c : R) (n : nat) : Rsum (repeat c n) = INR n * c.
Proof.
  induction n as [| n IH].
  - simpl. lra.
  - rewrite S_INR. simpl. rewrite IH. lra.
Qed.


End NumFacts.

(** ** The normalizer *)

Section Normalizer.

Local Open Scope R_scope.

Import ExtractIR ChannelResponse.

Lemma linear_rms_pos (rms_level : R) : 0 < linear_rms rms_level.
Proof. unfold linear_rms, Rpower. apply exp_pos. Qed.

(** The two copies of the normalizer are one function. *)
Lemma normalize_audio_normalize (sig : list num) (rms_level : R) :
  normalize_audio sig rms_level = normalize sig rms_level.
Proof. reflexivity. Qed.

Lemma energy_Fin (xs : list R) : energy (map Fin xs) = Fin (sum_squares xs).
Proof. unfold energy, sum_squares. rewrite map_sq_Fin. apply sum_Fin. Qed.

Lemma positive_energy_length (xs : list R) :
  0 < sum_squares xs -> 0 < INR (length xs).
Proof.
  destruct xs as [| x xs]; intros H.
  - unfold sum_squares in H. simpl in H. lra.
  - apply lt_0_INR. simpl. lia.
Qed.

Lemma ratio_pos (xs : list R) (rms_level : R) :
  0 < sum_squares xs -> 0 < ratio xs rms_level.
Proof.
  intros H. unfold ratio.
  pose proof (positive_energy_length xs H) as HN.
  pose proof (linear_rms_pos rms_level) as Hr. unfold linear_rms in Hr.
  apply Rdiv_lt_0_compat; [| exact H].
  apply Rmult_lt_0_compat; [exact HN |].
  apply pow_lt. exact Hr.
Qed.

Lemma scaling_factor_finite (xs : list R) (rms_level : R) :
  0 < sum_squares xs ->
  scaling_factor (map Fin xs) rms_level = Fin (sqrt (ratio xs rms_level)).
Proof.
  intros H. unfold scaling_factor. rewrite energy_Fin, length_map.
  pose proof (ratio_pos xs rms_level H) as Hq.
  unfold of_nat, sq, mul, div. rewrite (Rsign_pos _ H).
  assert (E : INR (length xs) * (linear_rms rms_level * linear_rms rms_level)
              / sum_squares xs = ratio xs rms_level)
    by (unfold ratio, linear_rms; simpl; field; lra).
  rewrite E. unfold nsqrt. rewrite (Rsign_pos _ Hq). reflexivity.
Qed.

Lemma normalize_finite (xs : list R) (rms_level : R) :
  0 < sum_squares xs ->
  normalize (map Fin xs) rms_level
  = map Fin (map (fun x => x * sqrt (ratio xs rms_level)) xs).
Proof.
  intros H. unfold normalize. rewrite (scaling_factor_finite xs rms_level H).
  rewrite !map_map. reflexivity.
Qed.

Lemma normalized_energy (xs : list R) (rms_level : R) :
  0 < sum_squares xs ->
  sum_squares (map (fun x => x * sqrt (ratio xs rms_level)) xs)
  = INR (length xs) * linear_rms rms_level ^ 2.
Proof.
  intros H. rewrite Rsum_scaled.
  pose proof (ratio_pos xs rms_level H) as Hq.
  rewrite sqrt_sqrt by lra. unfold ratio, linear_rms. field. lra.
Qed.

(** C4: for a signal of non-zero energy and a level [L], both copies of
    the normalizer return the input scaled by
    [a = sqrt (N * r^2 / sum of squares)] with [r = 10^(L/10)], and the
    root mean square of what they return is [r]. *)
Theorem normalize_reaches_target_rms (xs : list R) (L : R) :
  0 < sum_squares xs ->
  let r := Rpower 10 (L / 10) in
  let a := sqrt (INR (length xs) * r ^ 2 / sum_squares xs) in
  normalize (map Fin xs) L = map Fin (map (fun x => x * a) xs)
  /\ normalize_audio (map Fin xs) L = map Fin (map (fun x => x * a) xs)
  /\ rms (map (fun x => x * a) xs) = r.
Proof.
  intros H r a.
  assert (Ha : a = sqrt (ratio xs L)) by reflexivity.
  split; [| split].
  - rewrite Ha. apply normalize_finite. exact H.
  - rewrite normalize_audio_normalize, Ha. apply normalize_finite. exact H.
  - unfold rms. rewrite Ha, normalized_energy, length_map by exact H.
    pose proof (positive_energy_length xs H) as HN.
    pose proof (linear_rms_pos L) as Hr. unfold linear_rms in *. fold r in Hr |- *.
    clear Ha. clearbody r. clear a.
    replace (INR (length xs) * r ^ 2 / INR (length xs)) with (r * r)
      by (field; lra).
    apply sqrt_square. lra.
Qed.

(** At the signal [3, 4] and the level 0 the scaled signal has root mean
    square [10^0]. *)
Lemma normalize_reaches_target_rms_witness :
  let a := sqrt (INR 2 * Rpower 10 (0 / 10) ^ 2 / sum_squares [3; 4]) in
  rms (map (fun x => x * a) [3; 4]) = Rpower 10 (0 / 10).
Proof.
  apply (normalize_reaches_target_rms [3; 4] 0).
  unfold sum_squares. simpl. lra.
Defined.

(** C9: the normalizer is idempotent on signals of non-zero energy. *)
Theorem normalize_idempotent (xs : list R) (L : R) :
  0 < sum_squares xs ->
  normalize (normalize (map Fin xs) L) L = normalize (map Fin xs) L.
Proof.
  intros H. rewrite (normalize_finite xs L H).
  set (ys := map (fun x => x * sqrt (ratio xs L)) xs).
  pose proof (positive_energy_length xs H) as HN.
  pose proof (linear_rms_pos L) as Hr.
  assert (Hy : sum_squares ys = INR (length xs) * linear_rms L ^ 2)
    by (apply normalized_energy; exact H).
  assert (Hpos : 0 < sum_squares ys).
  { rewrite Hy. apply Rmult_lt_0_compat; [exact HN | apply pow_lt; exact Hr]. }
  rewrite (normalize_finite ys L Hpos).
  assert (Hone : ratio ys L = 1).
  { unfold ratio. rewrite Hy. unfold ys. rewrite length_map.
    unfold linear_rms in *. clear - HN Hr. field. split; lra. }
  rewrite Hone, sqrt_1. f_equal.
  rewrite <- (map_id ys) at 2. apply map_ext. intros x. lra.
Qed.

Lemma normalize_idempotent_witness :
  normalize (normalize (map Fin [3; 4]) 0) 0 = normalize (map Fin [3; 4]) 0.
Proof.
  apply (normalize_idempotent [3; 4] 0).
  unfold sum_squares. simpl. lra.
Defined.

End Normalizer.

(** ** The normalizer on silence *)

Section Silence.

Local Open Scope R_scope.

Import ExtractIR ChannelResponse.








End Silence.

(** ** The normalized mean squared error *)

Section Nmse.

Local Open Scope R_scope.

Import ExtractIR.

Lemma Rsign_Eq_inv (x : R) : Rsign x = Eq -> x = 0.
Proof.
  unfold Rsign.
  destruct (total_order_T x 0) as [[Hlt | Heq] | Hgt];
    intros E; try discriminate E. exact Heq.
Qed.

Lemma div_Fin (x y : R) : y <> 0 -> div (Fin x) (Fin y) = Fin (x / y).
Proof.
  intros Hy. unfold div.
  destruct (Rsign y) eqn:E; try reflexivity.
  apply Rsign_Eq_inv in E. contradiction.
Qed.

Lemma mean_Fin (l : list R) :
  l <> [] -> mean (map Fin l) = Fin (Rmean l).
Proof.
  intros Hl. unfold mean, Rmean, of_nat. rewrite sum_Fin, length_map.
  apply div_Fin.
  destruct l as [| x l]; [contradiction |].
  apply not_0_INR. simpl. lia.
Qed.

Lemma zip_sub_Fin (xs ys : list R) :
  zip_with sub (map Fin xs) (map Fin ys) = map Fin (differences xs ys).
Proof.
  unfold differences. revert ys.
  induction xs as [| x xs IH]; intros [| y ys]; simpl; try reflexivity.
  rewrite IH. reflexivity.
Qed.

Lemma length_zip_with {A B C : Type} (f : A -> B -> C) (l : list A) (m : list B) :
  length l = length m -> length (zip_with f l m) = length l.
Proof.
  revert m. induction l as [| a l IH]; intros [| b m] H; simpl in *;
    try reflexivity; try discriminate.
  f_equal. apply IH. lia.
Qed.

Lemma squared_error_Fin (xs ys : list R) :
  length xs = length ys -> xs <> [] ->
  squared_error (map Fin xs) (map Fin ys) = Fin (mean_squared_error xs ys).
Proof.
  intros Hlen Hne. unfold squared_error, mean_squared_error.
  rewrite zip_sub_Fin, map_sq_Fin. apply mean_Fin.
  intros E. apply (f_equal (@length R)) in E.
  rewrite length_map in E. unfold differences in E.
  rewrite length_zip_with in E by exact Hlen.
  destruct xs; [contradiction | discriminate].
Qed.

Lemma variance_Fin (ys : list R) :
  ys <> [] -> variance (map Fin ys) = Fin (mean_squared_deviation ys).
Proof.
  intros Hne. unfold variance, mean_squared_deviation.
  rewrite (mean_Fin _ Hne).
  replace (map sq (map (fun x => sub x (Fin (Rmean ys))) (map Fin ys)))
    with (map Fin (map (fun x => (x - Rmean ys) * (x - Rmean ys)) ys))
    by (rewrite !map_map; reflexivity).
  apply mean_Fin.
  destruct ys; [contradiction | discriminate].
Qed.

Lemma Rmean_nil : Rmean [] = 0.
Proof. unfold Rmean. simpl. unfold Rdiv. apply Rmult_0_l. Qed.

Lemma nonzero_deviation_nonempty (ys : list R) :
  mean_squared_deviation ys <> 0 -> ys <> [].
Proof.
  intros H E. subst ys. apply H. apply Rmean_nil.
Qed.

Lemma nmse_error_finite (xs ys : list R) :
  length xs = length ys -> mean_squared_deviation ys <> 0 ->
  nmse_error (map Fin xs) (map Fin ys)
  = Fin (mean_squared_error xs ys / mean_squared_deviation ys).
Proof.
  intros Hlen Hvar.
  pose proof (nonzero_deviation_nonempty _ Hvar) as Hy.
  assert (Hx : xs <> []) by (destruct xs, ys; try discriminate; congruence).
  unfold nmse_error. rewrite !length_map, Hlen, Nat.eqb_refl. simpl.
  rewrite (squared_error_Fin _ _ Hlen Hx), (variance_Fin _ Hy).
  apply div_Fin. exact Hvar.
Qed.

Lemma differences_self (ys : list R) :
  map (fun x => x * x) (differences ys ys) = repeat 0 (length ys).
Proof.
  unfold differences. induction ys as [| y ys IH]; simpl.
  - reflexivity.
  - rewrite IH. f_equal. lra.
Qed.

Lemma mean_squared_error_self (ys : list R) : mean_squared_error ys ys = 0.
Proof.
  unfold mean_squared_error, Rmean.
  rewrite differences_self, Rsum_repeat. unfold Rdiv. lra.
Qed.

(** C3: on inputs of one length [nmse_error] returns
    mean((signal - reference)^2) / mean((reference - mean(reference))^2),
    which on finite samples with a reference that is not constant is
    that quotient of real numbers; on inputs of different lengths it
    returns 0, the very value it returns for a signal that matches its
    reference. *)
Theorem nmse_error_value (xs ys : list R) (signal reference_signal : list num) :
  (length signal = length reference_signal ->
   nmse_error signal reference_signal
   = div (squared_error signal reference_signal) (variance reference_signal))
  /\ (length xs = length ys -> mean_squared_deviation ys <> 0 ->
      nmse_error (map Fin xs) (map Fin ys)
      = Fin (mean_squared_error xs ys / mean_squared_deviation ys))
  /\ (length signal <> length reference_signal ->
      nmse_error signal reference_signal = Fin 0)
  /\ (mean_squared_deviation ys <> 0 ->
      nmse_error (map Fin ys) (map Fin ys) = Fin 0).
Proof.
  split; [| split; [| split]].
  - intros H. unfold nmse_error. rewrite H, Nat.eqb_refl. reflexivity.
  - apply nmse_error_finite.
  - intros H. unfold nmse_error.
    apply Nat.eqb_neq in H. rewrite H. reflexivity.
  - intros H. rewrite (nmse_error_finite ys ys (eq_refl (length ys)) H).
    rewrite mean_squared_error_self. f_equal. unfold Rdiv. lra.
Qed.

Lemma deviation_0_2 : mean_squared_deviation [0; 2] <> 0.
Proof.
  unfold mean_squared_deviation, Rmean. simpl. lra.
Qed.

(** The signal [1, 2] against the reference [0, 2], the same signal
    against the shorter reference [0], and the reference against
    itself. *)
Lemma nmse_error_value_witness :
  nmse_error (map Fin [1; 2]) (map Fin [0; 2])
  = Fin (mean_squared_error [1; 2] [0; 2] / mean_squared_deviation [0; 2])
  /\ nmse_error (map Fin [1; 2]) (map Fin [0]) = Fin 0
  /\ nmse_error (map Fin [0; 2]) (map Fin [0; 2]) = Fin 0.
Proof.
  split; [| split].
  - apply (nmse_error_value [1; 2] [0; 2] [] []).
    + reflexivity.
    + exact deviation_0_2.
  - apply (nmse_error_value [] [] (map Fin [1; 2]) (map Fin [0])).
    simpl. lia.
  - apply (nmse_error_value [] [0; 2] [] []). exact deviation_0_2.
Defined.

End Nmse.

(** ** A constant reference signal *)

Section ConstantReference.

Local Open Scope R_scope.

Import ExtractIR.








End ConstantReference.

(** ** The margin *)

Section Margin.

Import ExtractIR.

Lemma bound_of_nat (n m : nat) : bound n (Z.of_nat m) = Nat.min m n.
Proof.
  unfold bound. destruct (Z.ltb_spec (Z.of_nat m) 0) as [H | H]; [lia |].
  rewrite Nat2Z.id. reflexivity.
Qed.

Lemma bound_negative (n m : nat) : bound n (- Z.of_nat (S m)) = n - S m.
Proof.
  unfold bound. destruct (Z.ltb_spec (- Z.of_nat (S m)) 0) as [H | H]; lia.
Qed.

Lemma skipn_min {A : Type} (l : list A) (m : nat) :
  skipn (Nat.min m (length l)) l = skipn m l.
Proof.
  destruct (Nat.le_gt_cases m (length l)) as [H | H].
  - rewrite Nat.min_l by exact H. reflexivity.
  - rewrite Nat.min_r by lia. rewrite skipn_all.
    symmetry. apply skipn_all2. lia.
Qed.

(** C2: a margin [m] takes the first [m] samples off the device signal;
    a margin [m + 1] takes the last [m + 1] samples off the
    reconstructed signal; the margin 0 takes every sample off the
    reconstructed signal. *)
Theorem margin_crops (speech_device speech_reconstructed : list num) (m : nat) :
  speech_device_mod speech_device (Z.of_nat m) = skipn m speech_device
  /\ speech_reconstructed_mod speech_reconstructed (Z.of_nat (S m))
     = firstn (length speech_reconstructed - S m) speech_reconstructed
  /\ speech_reconstructed_mod speech_reconstructed 0 = [].
Proof.
  split; [| split].
  - unfold speech_device_mod, slice_from. rewrite bound_of_nat. apply skipn_min.
  - unfold speech_reconstructed_mod, slice_to. rewrite bound_negative. reflexivity.
  - reflexivity.
Qed.

End Margin.

(** ** The search over the shifts *)

Section ShiftSearch.

Import ExtractIR.

Local Open Scope R_scope.

Lemma gtb_Fin_true (x y : R) : y < x -> Num.gtb (Fin x) (Fin y) = true.
Proof. intros H. simpl. rewrite Rsign_pos by lra. reflexivity. Qed.

Lemma gtb_Fin_false (x y : R) : x <= y -> Num.gtb (Fin x) (Fin y) = false.
Proof.
  intros H. simpl. destruct (Rsign (x - y)) eqn:E; try reflexivity.
  unfold Rsign in E.
  destruct (total_order_T (x - y) 0) as [[Hlt | Heq] | Hgt];
    try discriminate E. lra.
Qed.

Ltac compare_reals :=
  repeat match goal with
  | H : context [Num.gtb (Fin ?a) (Fin ?b)] |- _ =>
      destruct (Rlt_dec b a);
      [rewrite (gtb_Fin_true a b) in H by assumption
      | rewrite (gtb_Fin_false a b) in H by lra]
  | |- context [Num.gtb (Fin ?a) (Fin ?b)] =>
      destruct (Rlt_dec b a);
      [rewrite (gtb_Fin_true a b) by assumption
      | rewrite (gtb_Fin_false a b) by lra]
  end.

Ltac order_cases a b c :=
  destruct a, b, c; unfold before in *;
  try reflexivity; try discriminate;
  compare_reals; try reflexivity; try discriminate; try lra.

Lemma before_irrefl (a : num) : before a a = false.
Proof.
  destruct a; unfold before; try reflexivity.
  apply gtb_Fin_false. lra.
Qed.

(** What comes before a value comes before everything that value does
    not come after. *)
Lemma before_le_trans (x b y : num) :
  before x b = true -> before y b = false -> before x y = true.
Proof. intros H1 H2. order_cases x b y. Qed.

Lemma before_not_after (x b y : num) :
  before x b = true -> before y b = false -> before y x = false.
Proof. intros H1 H2. order_cases x b y. Qed.

Lemma argmin_scan_spec (l pre : list num) (i : nat) (best : num) :
  (i < length pre)%nat ->
  nth i pre NaN = best ->
  (forall k, (k < length pre)%nat -> before (nth k pre NaN) best = false) ->
  (forall k, (k < i)%nat -> before best (nth k pre NaN) = true) ->
  let r := argmin_scan i best (length pre) l in
  (fst r < length (pre ++ l))%nat
  /\ nth (fst r) (pre ++ l) NaN = snd r
  /\ (forall k, (k < length (pre ++ l))%nat ->
       before (nth k (pre ++ l) NaN) (snd r) = false)
  /\ (forall k, (k < fst r)%nat -> before (snd r) (nth k (pre ++ l) NaN) = true).
Proof.
  revert pre i best.
  induction l as [| x l IH]; intros pre i best Hi Hbest Hmin Hfirst.
  - simpl. rewrite app_nil_r. auto.
  - assert (Hlen : length (pre ++ [x]) = S (length pre))
      by (rewrite length_app; simpl; lia).
    assert (Hx : nth (length pre) (pre ++ [x]) NaN = x)
      by (rewrite app_nth2, Nat.sub_diag by lia; reflexivity).
    assert (Hpre : forall k, (k < length pre)%nat ->
                             nth k (pre ++ [x]) NaN = nth k pre NaN)
      by (intros k Hk; apply app_nth1; exact Hk).
    simpl argmin_scan.
    replace (pre ++ x :: l) with ((pre ++ [x]) ++ l)
      by (rewrite <- app_assoc; reflexivity).
    rewrite <- Hlen.
    destruct (before x best) eqn:Hxb.
    + apply IH.
      * lia.
      * exact Hx.
      * intros k Hk. rewrite Hlen in Hk.
        destruct (Nat.eq_dec k (length pre)) as [-> | Hne].
        -- rewrite Hx. apply before_irrefl.
        -- rewrite Hpre by lia.
           apply (before_not_after x best); [exact Hxb | apply Hmin; lia].
      * intros k Hk. rewrite Hpre by lia.
        apply (before_le_trans x best); [exact Hxb | apply Hmin; lia].
    + apply IH.
      * lia.
      * rewrite Hpre by lia. exact Hbest.
      * intros k Hk. rewrite Hlen in Hk.
        destruct (Nat.eq_dec k (length pre)) as [-> | Hne].
        -- rewrite Hx. exact Hxb.
        -- rewrite Hpre by lia. apply Hmin. lia.
      * intros k Hk. rewrite Hpre by lia. apply Hfirst. exact Hk.
Qed.

(** [np.argmin] and [np.min] on an array that is not empty: the index
    is that of the value, no item comes before the value, and the value
    comes before every item at a smaller index. *)
Lemma argmin_spec (x : num) (l : list num) :
  exists pos,
    argmin (x :: l) = Ok pos
    /\ amin (x :: l) = Ok (nth pos (x :: l) NaN)
    /\ (pos < length (x :: l))%nat
    /\ (forall k, (k < length (x :: l))%nat ->
         before (nth k (x :: l) NaN) (nth pos (x :: l) NaN) = false)
    /\ (forall k, (k < pos)%nat ->
         before (nth pos (x :: l) NaN) (nth k (x :: l) NaN) = true).
Proof.
  pose proof (argmin_scan_spec l [x] 0 x) as H. cbv zeta in H.
  change ([x] ++ l) with (x :: l) in H.
  change (length [x]) with 1%nat in H.
  destruct H as (H1 & H2 & H3 & H4).
  - lia.
  - reflexivity.
  - intros k Hk. assert (k = 0)%nat as -> by lia. apply before_irrefl.
  - intros k Hk. lia.
  - exists (fst (argmin_scan 0 x 1 l)). unfold argmin, amin.
    rewrite H2. repeat split; auto.
Qed.

Lemma shifts_length : length shifts = 400%nat.
Proof. unfold shifts, arange. rewrite length_map, length_seq. reflexivity. Qed.

Lemma nth_shifts (k : nat) (d : Z) :
  (k < 400)%nat -> nth k shifts d = (-200 + Z.of_nat k)%Z.
Proof.
  intros Hk. unfold shifts, arange.
  change (Z.to_nat (200 - -200)) with 400%nat.
  rewrite (nth_indep _ d (-200 + Z.of_nat 0)%Z)
    by (rewrite length_map, length_seq; exact Hk).
  rewrite (map_nth (fun k => (-200 + Z.of_nat k)%Z)).
  rewrite seq_nth by exact Hk. reflexivity.
Qed.

Lemma In_shifts (s : Z) : In s shifts <-> (-200 <= s <= 199)%Z.
Proof.
  unfold shifts, arange. change (Z.to_nat (200 - -200)) with 400%nat.
  rewrite in_map_iff. split.
  - intros (k & <- & Hk). apply in_seq in Hk. lia.
  - intros Hs. exists (Z.to_nat (s + 200)). split; [lia |].
    apply in_seq. lia.
Qed.

Lemma item_shifts (k : nat) :
  (k < 400)%nat -> item shifts k = Ok (-200 + Z.of_nat k)%Z.
Proof.
  intros Hk. unfold item.
  rewrite (nth_error_nth' shifts 0%Z) by (rewrite shifts_length; exact Hk).
  rewrite nth_shifts by exact Hk. reflexivity.
Qed.

Lemma err_list_length (win_device win_reconstructed : list num) :
  length (err_list win_device win_reconstructed) = 400%nat.
Proof. unfold err_list. rewrite length_map. apply shifts_length. Qed.

Lemma errors_length (win_device win_reconstructed : list num) :
  length (errors win_device win_reconstructed) = 400%nat.
Proof. unfold errors. rewrite length_map. apply err_list_length. Qed.

Lemma nth_err_list (win_device win_reconstructed : list num) (s : Z) :
  (-200 <= s <= 199)%Z ->
  nth (Z.to_nat (s + 200)) (err_list win_device win_reconstructed) NaN
  = nmse_error (slice win_reconstructed (200 + s) (-200 + s))
               (slice win_device 200 (-200)).
Proof.
  intros Hs. unfold err_list.
  set (f := fun shift : Z =>
              nmse_error (slice win_reconstructed (200 + shift) (-200 + shift))
                         (slice win_device 200 (-200))).
  rewrite (nth_indep _ NaN (f 0%Z))
    by (rewrite length_map, shifts_length; lia).
  rewrite (map_nth f), nth_shifts by lia.
  unfold f. do 2 f_equal; lia.
Qed.

Lemma nth_errors (win_device win_reconstructed : list num) (k : nat) :
  (k < 400)%nat ->
  nth k (errors win_device win_reconstructed) NaN
  = mul (Fin 10) (log10 (nth k (err_list win_device win_reconstructed) NaN)).
Proof.
  intros Hk. unfold errors.
  rewrite (nth_indep _ NaN (mul (Fin 10) (log10 NaN)))
    by (rewrite length_map, err_list_length; exact Hk).
  apply (map_nth (fun e => mul (Fin 10) (log10 e))).
Qed.

(** C1: for a window, the shifts searched are exactly the integers from
    -200 to 199; the error of the shift [s] is the error of the slice
    [200 + s : -200 + s] of the reconstructed window against the slice
    [200 : -200] of the device window; and the window's result is the
    least value of the errors in decibels with the first shift that
    reaches it. *)
Theorem best_shift_is_argmin (win_device win_reconstructed : list num) :
  (forall s : Z, In s shifts <-> (-200 <= s <= 199)%Z)
  /\ (forall s : Z, (-200 <= s <= 199)%Z ->
       nth (Z.to_nat (s + 200)) (err_list win_device win_reconstructed) NaN
       = nmse_error (slice win_reconstructed (200 + s) (-200 + s))
                    (slice win_device 200 (-200)))
  /\ (forall k, (k < 400)%nat ->
       nth k (errors win_device win_reconstructed) NaN
       = mul (Fin 10)
             (log10 (nth k (err_list win_device win_reconstructed) NaN)))
  /\ exists pos,
       (pos < 400)%nat
       /\ analyze_window win_device win_reconstructed
          = Ok (nth pos (errors win_device win_reconstructed) NaN,
                (-200 + Z.of_nat pos)%Z)
       /\ (forall k, (k < 400)%nat ->
            not_after (nth pos (errors win_device win_reconstructed) NaN)
                      (nth k (errors win_device win_reconstructed) NaN))
       /\ (forall k, (k < pos)%nat ->
            before (nth pos (errors win_device win_reconstructed) NaN)
                   (nth k (errors win_device win_reconstructed) NaN) = true).
Proof.
  split; [exact In_shifts |].
  split; [apply nth_err_list |].
  split; [apply nth_errors |].
  unfold analyze_window.
  pose proof (errors_length win_device win_reconstructed) as Hlen.
  destruct (errors win_device win_reconstructed) as [| x l] eqn:E;
    [discriminate Hlen |].
  destruct (argmin_spec x l) as (pos & Harg & Hmin & Hpos & Hleast & Hfirst).
  rewrite Hlen in Hpos, Hleast.
  exists pos. split; [exact Hpos |].
  split; [| split].
  - rewrite Hmin, Harg. simpl. rewrite item_shifts by exact Hpos. reflexivity.
  - intros k Hk. unfold not_after. apply Hleast. exact Hk.
  - exact Hfirst.
Qed.

(** The shift +200 is not among the shifts searched, of which there are
    400 and not 401. *)
Lemma shift_200_is_not_searched :
  existsb (Z.eqb 200) shifts = false
  /\ length shifts = 400%nat
  /\ nth 399 shifts 0%Z = 199%Z.
Proof. vm_compute. auto. Qed.

(** *** What the margin 0 does to the search

    With the margin 0 the reconstructed signal is empty, and so is every
    window of it. *)

Lemma slice_nil {A : Type} (start stop : Z) : slice (@nil A) start stop = [].
Proof. unfold slice. rewrite skipn_nil. apply firstn_nil. Qed.

Lemma trimmed_length {A : Type} (l : list A) :
  (400 < length l)%nat -> length (slice l 200 (-200)) = (length l - 400)%nat.
Proof.
  intros H. unfold slice, bound.
  change (200 <? 0)%Z with false. change (-200 <? 0)%Z with true. cbv iota.
  rewrite length_firstn, length_skipn. lia.
Qed.

Lemma zero_error_dB : mul (Fin 10) (log10 (Fin 0)) = NInf.
Proof.
  unfold log10. rewrite Rsign_zero. unfold mul.
  rewrite Rsign_pos by lra. reflexivity.
Qed.

Lemma argmin_scan_repeat (c : num) (n i j : nat) :
  argmin_scan i c j (repeat c n) = (i, c).
Proof.
  revert j. induction n as [| n IH]; intros j; simpl; [reflexivity |].
  rewrite before_irrefl. apply IH.
Qed.

(** Against an empty reconstructed window every shift gives the error 0
    of the length mismatch, which is [-inf] in decibels, and the shift
    recorded is the first one. *)
Lemma analyze_window_empty_reconstruction (win_device : list num) :
  (400 < length win_device)%nat ->
  err_list win_device [] = repeat (Fin 0) 400
  /\ analyze_window win_device [] = Ok (NInf, (-200)%Z).
Proof.
  intros H.
  assert (Herr : err_list win_device [] = repeat (Fin 0) 400).
  { unfold err_list. rewrite <- shifts_length, <- map_const.
    apply map_ext. intros s. rewrite slice_nil. unfold nmse_error.
    rewrite trimmed_length by exact H. simpl length.
    destruct (Nat.eqb_spec 0 (length win_device - 400)) as [E | _]; [lia |].
    reflexivity. }
  split; [exact Herr |].
  unfold analyze_window, errors. rewrite Herr, map_repeat, zero_error_dB.
  change (repeat NInf 400) with (NInf :: repeat NInf 399).
  unfold amin, argmin. rewrite argmin_scan_repeat. reflexivity.
Qed.

Lemma margin_zero_example :
  speech_device_mod [Fin 1; Fin 2; Fin 3] 0 = [Fin 1; Fin 2; Fin 3]
  /\ speech_reconstructed_mod [Fin 1; Fin 2; Fin 3] 0 = [].
Proof. split; reflexivity. Qed.

End ShiftSearch.

(** ** The roll and the split of the impulse response *)

Section Roll.

Lemma roll_length {A : Type} (l : list A) (shift : Z) :
  length (Py.roll l shift) = length l.
Proof.
  unfold Py.roll. destruct (length l) as [| n] eqn:E; [exact E |].
  rewrite length_app, length_skipn, length_firstn. lia.
Qed.

(** Rolling by a multiple of the length changes nothing. *)
Lemma roll_multiple {A : Type} (l : list A) (shift : Z) :
  (shift mod Z.of_nat (length l) = 0)%Z -> Py.roll l shift = l.
Proof.
  intros H. unfold Py.roll. destruct (length l) as [| n] eqn:E; [reflexivity |].
  rewrite H. simpl Z.to_nat. rewrite Nat.sub_0_r, <- E.
  rewrite skipn_all, firstn_all. reflexivity.
Qed.

(** Moving the last [length l - m] items to the front and then the last
    [m] items to the front restores the list. *)
Lemma rotate_back {A : Type} (l : list A) (m : nat) :
  m <= length l ->
  skipn (length l - m) (skipn m l ++ firstn m l)
  ++ firstn (length l - m) (skipn m l ++ firstn m l) = l.
Proof.
  intros Hm.
  assert (Hs : length (skipn m l) = length l - m) by apply length_skipn.
  rewrite skipn_app, firstn_app, Hs, Nat.sub_diag.
  rewrite <- Hs at 1. rewrite skipn_all.
  rewrite <- Hs at 1. rewrite firstn_all.
  simpl. rewrite app_nil_r. apply firstn_skipn.
Qed.

(** [np.roll(np.roll(l, k), -k)] is [l]. *)
Lemma roll_round_trip {A : Type} (l : list A) (shift : Z) :
  Py.roll (Py.roll l shift) (- shift) = l.
Proof.
  destruct (Nat.eq_dec (length l) 0) as [Hnil | Hne].
  - apply length_zero_iff_nil in Hnil. subst l. reflexivity.
  - assert (Hn : Z.of_nat (length l) <> 0%Z) by lia.
    destruct (Z.eq_dec (shift mod Z.of_nat (length l)) 0) as [H0 | Hnz].
    + rewrite (roll_multiple l shift H0). apply roll_multiple.
      apply Z.mod_opp_l_z; assumption.
    + pose proof (Z.mod_pos_bound shift (Z.of_nat (length l))) as Hb.
      pose proof (Z.mod_opp_l_nz shift (Z.of_nat (length l)) Hn Hnz) as Ho.
      unfold Py.roll at 1. rewrite roll_length.
      unfold Py.roll. destruct (length l) as [| n] eqn:E; [lia |].
      rewrite Ho. rewrite <- E in *.
      set (k := Z.to_nat (shift mod Z.of_nat (length l))).
      assert (Hk : 0 < k < length l) by (unfold k; lia).
      replace (Z.to_nat (Z.of_nat (length l) - shift mod Z.of_nat (length l)))
        with (length l - k) by (unfold k; lia).
      pose proof (rotate_back l (length l - k)) as R.
      assert (Hr : length l - (length l - k) = k) by lia.
      rewrite Hr in *. apply R. lia.
Qed.

End Roll.

Section IRExtractor.

Import ExtractIR.

Variable cplx : Type.
Variable cmul : cplx -> cplx -> cplx.
Variable creal : cplx -> num.
Variable fft : list num -> nat -> list cplx.
Variable ifft : list cplx -> list cplx.

Lemma multiply_shape (inv_sweep_fft : array2 cplx) (sweep_fft : ndarray cplx)
  (prod : array2 cplx) :
  multiply cmul inv_sweep_fft sweep_fft = Ok prod ->
  shape1 prod = shape1 inv_sweep_fft.
Proof.
  unfold multiply. destruct sweep_fft as [x | b].
  - intros [= <-]. reflexivity.
  - destruct (shape0 inv_sweep_fft =? shape0 b);
      [| destruct (shape0 b =? 1); [| destruct (shape0 inv_sweep_fft =? 1)]];
      intros H; try discriminate H; injection H as <-; reflexivity.
Qed.

Lemma deconvolve_shape (sweep_response : ndarray num)
  (inv_sweep_fft : array2 cplx) (ir : array2 num) :
  deconvolve cmul creal fft ifft sweep_response inv_sweep_fft = Ok ir ->
  shape1 ir = shape1 inv_sweep_fft.
Proof.
  unfold deconvolve.
  destruct (multiply cmul inv_sweep_fft _) as [prod | e] eqn:E; simpl;
    intros H; [| discriminate H].
  injection H as <-. simpl. apply (multiply_shape _ _ _ E).
Qed.

(** A sweep of one dimension is always deconvolved. *)
Lemma deconvolve_mono (x : list num) (inv_sweep_fft : array2 cplx) :
  exists ir,
    deconvolve cmul creal fft ifft (Dim1 x) inv_sweep_fft = Ok ir.
Proof. unfold deconvolve. simpl. eexists. reflexivity. Qed.

Lemma rows_length {A : Type} (a : array2 A) : length (rows a) = shape0 a.
Proof. unfold rows. rewrite length_map, length_seq. reflexivity. Qed.

Lemma row_length {A : Type} (a : array2 A) (i : nat) :
  wf a -> i < shape0 a -> length (row a i) = shape1 a.
Proof.
  unfold wf, row. intros Hwf Hi. rewrite length_firstn, length_skipn, Hwf. nia.
Qed.

Lemma rows_lengths {A : Type} (a : array2 A) :
  wf a -> Forall (fun r => length r = shape1 a) (rows a).
Proof.
  intros Hwf. apply Forall_forall. intros r Hr. unfold rows in Hr.
  apply in_map_iff in Hr. destruct Hr as (i & <- & Hi).
  apply in_seq in Hi. apply row_length; [exact Hwf | lia].
Qed.

Lemma concat_length {A : Type} (n : nat) (rs : list (list A)) :
  Forall (fun r => length r = n) rs -> length (concat rs) = length rs * n.
Proof.
  induction 1 as [| r rs Hr _ IH]; simpl; [reflexivity |].
  rewrite length_app, Hr, IH. reflexivity.
Qed.

Lemma of_rows_wf {A : Type} (n : nat) (rs : list (list A)) :
  Forall (fun r => length r = n) rs -> wf (of_rows n rs).
Proof. intros H. unfold wf, of_rows. simpl. apply concat_length. exact H. Qed.

Lemma Forall_map_length {A B : Type} (f : list A -> list B) (n : nat)
  (rs : list (list A)) :
  (forall r, length r = n -> length (f r) = n) ->
  Forall (fun r => length r = n) rs ->
  Forall (fun r => length r = n) (map f rs).
Proof.
  intros Hf H. induction H as [| r rs Hr _ IH]; simpl; constructor; auto.
Qed.

Section Contract.

(** What [scipy.fft] documents about lengths. *)
Hypothesis fft_length : forall x n, length (fft x n) = n.
Hypothesis ifft_length : forall v, length (ifft v) = length v.

(** For a sweep of one dimension and a well-formed inverse spectrum the
    deconvolution is a well-formed array with one row per channel of
    the inverse spectrum and [fft_size] columns. *)
Lemma deconvolve_mono_wf (x : list num) (inv_sweep_fft : array2 cplx)
  (ir : array2 num) :
  wf inv_sweep_fft ->
  deconvolve cmul creal fft ifft (Dim1 x) inv_sweep_fft = Ok ir ->
  wf ir /\ shape0 ir = shape0 inv_sweep_fft /\ shape1 ir = shape1 inv_sweep_fft.
Proof.
  intros Hwf. unfold deconvolve, channel_major, fft_last_axis, multiply, bind.
  intros [= <-].
  set (n := shape1 inv_sweep_fft).
  set (prod := of_rows n (map (fun r => zip_with cmul r (fft x n))
                              (rows inv_sweep_fft))).
  assert (Hprod : wf prod).
  { apply of_rows_wf. apply Forall_map_length; [| apply rows_lengths; exact Hwf].
    intros r Hr. rewrite length_zip_with; [exact Hr |].
    rewrite Hr, fft_length. reflexivity. }
  assert (Hn : shape1 prod = n) by reflexivity.
  split; [| split].
  - unfold real_ifft. apply of_rows_wf. rewrite Hn.
    apply Forall_map_length.
    + intros r Hr. rewrite length_map, ifft_length. exact Hr.
    + rewrite <- Hn. apply rows_lengths. exact Hprod.
  - unfold real_ifft, of_rows. cbn [shape0].
    rewrite length_map, rows_length. unfold prod, of_rows. cbn [shape0].
    rewrite length_map, rows_length. reflexivity.
  - reflexivity.
Qed.

End Contract.

Lemma len_rows_to {A : Type} (a : array2 A) (k : nat) :
  len (rows_to a k) = Nat.min k (len a).
Proof. reflexivity. Qed.

Lemma len_rows_from {A : Type} (a : array2 A) (k : nat) :
  len (rows_from a k) = len a - Nat.min k (len a).
Proof. reflexivity. Qed.

Lemma len_centered (ir : array2 num) : len (centered ir) = shape1 ir.
Proof. reflexivity. Qed.

Lemma half_le (n : nat) : n / 2 <= n.
Proof. pose proof (Nat.Div0.mul_div_le n 2). lia. Qed.

(** The first rows followed by the other rows are the array. *)
Lemma split_concatenate {A : Type} (a : array2 A) (k : nat) :
  concatenate (rows_to a k) (rows_from a k) = a.
Proof.
  destruct a as [s0 s1 l]. unfold concatenate, rows_to, rows_from. simpl.
  rewrite firstn_skipn. f_equal. lia.
Qed.

Lemma roll_array_round_trip {A : Type} (a : array2 A) (shift : Z) :
  Array2.roll (Array2.roll a shift) (- shift) = a.
Proof.
  destruct a as [s0 s1 l]. unfold Array2.roll. simpl.
  rewrite roll_round_trip. reflexivity.
Qed.

(** C7: when the deconvolution gives [ir], [extract_ir_sweep] returns
    the rows of the rolled array from the midpoint on as [ir_lin] and
    those before it as [ir_non_lin]; [ir_non_lin] followed by [ir_lin]
    and rolled back by half the FFT size is the array that was rolled;
    the two parts have as many rows together as the inverse sweep has
    FFT bins.  When the deconvolution fails, so does the extraction; for
    a sweep of one dimension it does not fail. *)
Theorem extract_ir_sweep_round_trip (sweep_response : ndarray num)
  (inv_sweep_fft : array2 cplx) :
  let fft_size := shape1 inv_sweep_fft in
  match deconvolve cmul creal fft ifft sweep_response inv_sweep_fft with
  | Ok ir =>
      exists ir_lin ir_non_lin,
        extract_ir_sweep cmul creal fft ifft sweep_response inv_sweep_fft
        = Ok (ir_lin, ir_non_lin)
        /\ Array2.roll (concatenate ir_non_lin ir_lin)
                       (- Z.of_nat (fft_size / 2))
           = transpose Num.zero ir
        /\ len ir_non_lin = fft_size / 2
        /\ len ir_lin = fft_size - fft_size / 2
        /\ len ir_non_lin + len ir_lin = fft_size
  | Raise e =>
      extract_ir_sweep cmul creal fft ifft sweep_response inv_sweep_fft
      = Raise e
      /\ forall x, sweep_response <> Dim1 x
  end.
Proof.
  intros fft_size.
  destruct (deconvolve cmul creal fft ifft sweep_response inv_sweep_fft)
    as [ir | e] eqn:E.
  - pose proof (deconvolve_shape _ _ _ E) as Hshape. fold fft_size in Hshape.
    pose proof (half_le fft_size) as Hhalf.
    unfold extract_ir_sweep. rewrite E. unfold bind.
    eexists. eexists. split; [reflexivity |].
    split; [| split; [| split]].
    + rewrite split_concatenate. unfold centered. rewrite Hshape.
      apply roll_array_round_trip.
    + rewrite len_rows_to, !len_centered, Hshape. lia.
    + rewrite len_rows_from, !len_centered, Hshape. lia.
    + rewrite len_rows_to, len_rows_from, !len_centered, Hshape. lia.
  - split.
    + unfold extract_ir_sweep. rewrite E. reflexivity.
    + intros x ->. destruct (deconvolve_mono x inv_sweep_fft) as [ir Hir].
      rewrite Hir in E. discriminate E.
Qed.

End IRExtractor.

(** ** The thresholded average *)

Section Threshold.

Import ChannelResponse.

Local Open Scope R_scope.

Lemma apply_threshold_above (t v : R) :
  t < v -> apply_threshold (Fin t) (Fin v) = NaN.
Proof.
  intros H. unfold apply_threshold. rewrite gtb_Fin_true by exact H. reflexivity.
Qed.

Lemma apply_threshold_kept (t v : R) :
  v <= t -> apply_threshold (Fin t) (Fin v) = Fin v.
Proof.
  intros H. unfold apply_threshold. rewrite gtb_Fin_false by exact H. reflexivity.
Qed.

(** What is left of a thresholded bin once the missing values are taken
    out. *)
Lemma thresholded_kept (t : R) (vs : list R) :
  filter (fun v => negb (is_nan v)) (map (apply_threshold (Fin t)) (map Fin vs))
  = map Fin (kept_values t vs).
Proof.
  unfold kept_values. induction vs as [| v vs IH]; simpl; [reflexivity |].
  destruct (Rle_dec v t) as [Hle | Hgt].
  - rewrite apply_threshold_kept by exact Hle. simpl. rewrite IH. reflexivity.
  - rewrite apply_threshold_above by lra. simpl. exact IH.
Qed.

Lemma kept_values_none (t : R) (vs : list R) :
  (forall v, In v vs -> t < v) -> kept_values t vs = [].
Proof.
  unfold kept_values. induction vs as [| v vs IH]; intros H; simpl; [reflexivity |].
  destruct (Rle_dec v t) as [Hle | Hgt].
  - specialize (H v (or_introl eq_refl)). lra.
  - apply IH. intros w Hw. apply H. right. exact Hw.
Qed.

Lemma nanmean_thresholded (t : R) (vs : list R) :
  nanmean (map (apply_threshold (Fin t)) (map Fin vs))
  = mean (map Fin (kept_values t vs)).
Proof. unfold nanmean. rewrite thresholded_kept. reflexivity. Qed.

Lemma mean_nil : mean [] = NaN.
Proof. unfold mean, Num.sum, zero, of_nat. simpl. rewrite Rsign_zero. reflexivity. Qed.

Lemma row_map {A B : Type} (f : A -> B) (s0 s1 : nat) (l : list A) (i : nat) :
  row (Array2.Build s0 s1 (map f l)) i = map f (row (Array2.Build s0 s1 l) i).
Proof.
  unfold row. simpl. rewrite skipn_map, firstn_map. reflexivity.
Qed.

Variable cplx : Type.
Variable cabs : cplx -> num.
Variable stft : list num -> forall n_fft hop_length win_length : nat, array2 cplx.

Lemma channel_response_rows (windowed : list num) (threshold : num)
  (n_fft hop_length win_length : nat) :
  channel_response cabs stft windowed threshold n_fft hop_length win_length
  = map (fun bin => nanmean (map (apply_threshold threshold) bin))
        (rows (log_spectrogram cabs
                 (stft windowed n_fft hop_length win_length))).
Proof.
  unfold channel_response.
  destruct (log_spectrogram cabs _) as [s0 s1 l].
  unfold nanmean_axis1, thresholded, rows. cbn [shape0 shape1 items].
  rewrite !map_map. apply map_ext. intros i.
  rewrite row_map. reflexivity.
Qed.

(** C6: a value strictly greater than the threshold becomes missing and
    a value up to the threshold, the threshold itself included, is kept;
    an entry of the channel response is the average of its bin over the
    values that are not missing, which for a bin of finite values is
    the mean of the values up to the threshold; and a bin whose values
    are all greater than the threshold gives a missing entry, which is
    not zero. *)
Theorem channel_response_ignores_missing (t : R) (vs : list R)
  (windowed : list num) (threshold : num) (n_fft hop_length win_length : nat) :
  (forall v : R, t < v -> apply_threshold (Fin t) (Fin v) = NaN)
  /\ (forall v : R, v <= t -> apply_threshold (Fin t) (Fin v) = Fin v)
  /\ apply_threshold (Fin t) (Fin t) = Fin t
  /\ channel_response cabs stft windowed threshold n_fft hop_length win_length
     = map (fun bin => nanmean (map (apply_threshold threshold) bin))
           (rows (log_spectrogram cabs
                    (stft windowed n_fft hop_length win_length)))
  /\ nanmean (map (apply_threshold (Fin t)) (map Fin vs))
     = mean (map Fin (kept_values t vs))
  /\ (kept_values t vs <> [] ->
      nanmean (map (apply_threshold (Fin t)) (map Fin vs))
      = Fin (Rmean (kept_values t vs)))
  /\ ((forall v, In v vs -> t < v) ->
      nanmean (map (apply_threshold (Fin t)) (map Fin vs)) = NaN
      /\ NaN <> Fin 0).
Proof.
  split; [apply apply_threshold_above |].
  split; [apply apply_threshold_kept |].
  split; [apply apply_threshold_kept; lra |].
  split; [apply channel_response_rows |].
  split; [apply nanmean_thresholded |].
  split.
  - intros H. rewrite nanmean_thresholded. apply mean_Fin. exact H.
  - intros H. split; [| discriminate].
    rewrite nanmean_thresholded, (kept_values_none t vs H). apply mean_nil.
Qed.

End Threshold.

(** ** The windows of the channel response extractor *)

Section Windows.

Import ChannelResponse.

Local Open Scope Z_scope.


Lemma range_length (n : Z) : length (range n) = Z.to_nat n.
Proof. unfold range. rewrite length_map, length_seq. reflexivity. Qed.

Lemma slice_length {A : Type} (l : list A) (start stop : Z) :
  0 <= start <= stop -> stop <= Z.of_nat (length l) ->
  length (slice l start stop) = Z.to_nat (stop - start).
Proof.
  intros H1 H2. unfold slice, bound.
  destruct (Z.ltb_spec start 0) as [Ha | Ha]; [lia |].
  destruct (Z.ltb_spec stop 0) as [Hb | Hb]; [lia |].
  rewrite length_firstn, length_skipn. lia.
Qed.



Variable cplx : Type.
Variable cabs : cplx -> num.
Variable preemphasis : list num -> list num.
Variable stft : list num -> forall n_fft hop_length win_length : nat, array2 cplx.

(** The shape [librosa.stft] documents: one row per frequency bin. *)
Hypothesis stft_bins :
  forall y n_fft hop_length win_length,
    shape0 (stft y n_fft hop_length win_length) = (n_fft / 2 + 1)%nat.



End Windows.

(** ** Examples *)

Section Examples.

Import ExtractIR ChannelResponse.



(** The threshold 0 on the bin [-3, 2, -1] and on the bin [1, 2]. *)
Lemma channel_response_ignores_missing_witness :
  nanmean (map (apply_threshold (Fin 0)) (map Fin [-3; 2; -1]%R))
  = Fin (Rmean (kept_values 0 [-3; 2; -1]%R))
  /\ nanmean (map (apply_threshold (Fin 0)) (map Fin [1; 2]%R)) = NaN.
Proof.
  split.
  - apply (channel_response_ignores_missing unit (fun _ => Fin 0)
             (fun _ n_fft _ _ => Array2.Build (n_fft / 2 + 1) 0 [])
             0%R [-3; 2; -1]%R [] (Fin 0) 0 0 0).
    unfold kept_values. simpl.
    destruct (Rle_dec (-3) 0) as [_ | H]; [discriminate | exfalso; lra].
  - apply (channel_response_ignores_missing unit (fun _ => Fin 0)
             (fun _ n_fft _ _ => Array2.Build (n_fft / 2 + 1) 0 [])
             0%R [1; 2]%R [] (Fin 0) 0 0 0).
    simpl. intros v [<- | [<- | []]]; lra.
Defined.

End Examples.

(** * Further properties *)

(** ** The normalizer: gain, level and samples that are not finite *)

Section NormalizerMore.

Local Open Scope R_scope.

Import ExtractIR.

Lemma ratio_scaled (xs : list R) (c L : R) :
  0 < sum_squares xs -> c <> 0 ->
  ratio (map (fun x => x * c) xs) L = ratio xs L * / (c * c).
Proof.
  intros H Hc. unfold ratio. rewrite Rsum_scaled, length_map. field. split; lra.
Qed.

Lemma sqrt_ratio_scaled (xs : list R) (c L : R) :
  0 < sum_squares xs -> c <> 0 ->
  sqrt (ratio (map (fun x => x * c) xs) L) = sqrt (ratio xs L) / Rabs c.
Proof.
  intros H Hc. rewrite (ratio_scaled xs c L H Hc).
  pose proof (ratio_pos xs L H) as Hq.
  rewrite sqrt_mult_alt by lra.
  rewrite sqrt_inv. fold (Rsqr c). rewrite sqrt_Rsqr_abs. reflexivity.
Qed.

Lemma sum_squares_scaled_pos (xs : list R) (c : R) :
  0 < sum_squares xs -> c <> 0 -> 0 < sum_squares (map (fun x => x * c) xs).
Proof.
  intros H Hc. rewrite Rsum_scaled.
  assert (0 < c * c) by (destruct (Rtotal_order c 0) as [|[|]]; nra).
  nra.
Qed.

(** X1: the normalizer does not see the gain of its input: a signal of
    non-zero energy multiplied by [c > 0] is normalized to the same
    signal, and multiplied by [c < 0] to its negation. *)
Theorem normalize_gain (xs : list R) (c L : R) :
  0 < sum_squares xs ->
  (0 < c ->
   normalize (map Fin (map (fun x => x * c) xs)) L = normalize (map Fin xs) L)
  /\ (c < 0 ->
      normalize (map Fin (map (fun x => x * c) xs)) L
      = map neg (normalize (map Fin xs) L)).
Proof.
  intros H. split; intros Hc.
  - rewrite (normalize_finite _ L (sum_squares_scaled_pos xs c H ltac:(lra))).
    rewrite (normalize_finite xs L H), sqrt_ratio_scaled by (try exact H; lra).
    rewrite Rabs_right by lra. rewrite !map_map. apply map_ext. intros x.
    f_equal. field. lra.
  - rewrite (normalize_finite _ L (sum_squares_scaled_pos xs c H ltac:(lra))).
    rewrite (normalize_finite xs L H), sqrt_ratio_scaled by (try exact H; lra).
    rewrite Rabs_left by lra. rewrite !map_map. apply map_ext. intros x.
    simpl. f_equal. field. lra.
Qed.

Lemma normalize_gain_witness :
  normalize (map Fin (map (fun x => x * 2) [3; 4])) 0
  = normalize (map Fin [3; 4]) 0.
Proof.
  apply (normalize_gain [3; 4] 2 0).
  - unfold sum_squares. simpl. lra.
  - lra.
Defined.

Lemma linear_rms_step (L : R) : linear_rms (L + 10) = 10 * linear_rms L.
Proof.
  unfold linear_rms.
  replace ((L + 10) / 10) with (1 + L / 10) by field.
  rewrite Rpower_plus, Rpower_1 by lra. reflexivity.
Qed.

(** X2: ten more units of [rms_level] multiply every sample of the
    output by ten. *)
Theorem normalize_level_step (xs : list R) (L : R) :
  0 < sum_squares xs ->
  normalize (map Fin xs) (L + 10)
  = map (mul (Fin 10)) (normalize (map Fin xs) L).
Proof.
  intros H. rewrite !(normalize_finite xs _ H).
  assert (Hq : ratio xs (L + 10) = (10 * 10) * ratio xs L).
  { unfold ratio. fold (linear_rms (L + 10)). fold (linear_rms L).
    rewrite linear_rms_step. field. lra. }
  pose proof (ratio_pos xs L H) as Hpos.
  rewrite Hq, sqrt_mult_alt, sqrt_square by lra.
  rewrite !map_map. apply map_ext. intros x. simpl. f_equal. ring.
Qed.

Lemma normalize_level_step_witness :
  normalize (map Fin [3; 4]) (0 + 10)
  = map (mul (Fin 10)) (normalize (map Fin [3; 4]) 0).
Proof.
  apply (normalize_level_step [3; 4] 0). unfold sum_squares. simpl. lra.
Defined.

End NormalizerMore.

Section NotFinite.

Local Open Scope R_scope.

Import ExtractIR ChannelResponse.













End NotFinite.

(** ** The normalized mean squared error: sign, zero and invariance *)

Section NmseMore.

Local Open Scope R_scope.

Import ExtractIR.

Lemma Rsum_squares_nonneg (l : list R) : 0 <= Rsum (map (fun x => x * x) l).
Proof.
  induction l as [| x l IH]; simpl; [lra |]. nra.
Qed.

Lemma Rsum_squares_zero (l : list R) :
  Rsum (map (fun x => x * x) l) = 0 -> Forall (fun x => x = 0) l.
Proof.
  induction l as [| x l IH]; simpl; intros H; [constructor |].
  pose proof (Rsum_squares_nonneg l) as Hl.
  assert (Hx : x * x = 0) by nra.
  constructor; [nra | apply IH; nra].
Qed.

Lemma Rmean_squares_nonneg (l : list R) : 0 <= Rmean (map (fun x => x * x) l).
Proof.
  unfold Rmean. rewrite length_map.
  pose proof (Rsum_squares_nonneg l) as Hl.
  destruct l as [| x l].
  - simpl. unfold Rdiv. rewrite Rmult_0_l. lra.
  - apply Rmult_le_pos; [exact Hl |].
    apply Rlt_le, Rinv_0_lt_compat, lt_0_INR. simpl. lia.
Qed.

Lemma mean_squared_deviation_nonneg (ys : list R) :
  0 <= mean_squared_deviation ys.
Proof.
  unfold mean_squared_deviation.
  rewrite <- (map_map (fun x => x - Rmean ys) (fun d => d * d)).
  apply Rmean_squares_nonneg.
Qed.

Lemma differences_zero (xs ys : list R) :
  length xs = length ys ->
  Forall (fun d => d = 0) (differences xs ys) -> xs = ys.
Proof.
  unfold differences. revert ys.
  induction xs as [| x xs IH]; intros [| y ys] Hlen H; simpl in *;
    try reflexivity; try discriminate.
  inversion H as [| ? ? Hd Hrest]; subst.
  f_equal; [lra | apply IH; [lia | exact Hrest]].
Qed.

Lemma mean_squared_error_zero (xs ys : list R) :
  length xs = length ys -> xs <> [] ->
  mean_squared_error xs ys = 0 -> xs = ys.
Proof.
  intros Hlen Hne H. apply differences_zero; [exact Hlen |].
  apply Rsum_squares_zero.
  unfold mean_squared_error, Rmean in H. rewrite length_map in H.
  unfold differences in H. rewrite length_zip_with in H by exact Hlen.
  assert (Hn : 0 < INR (length xs))
    by (apply lt_0_INR; destruct xs; [contradiction | simpl; lia]).
  unfold differences.
  apply (Rmult_eq_compat_r (INR (length xs))) in H.
  unfold Rdiv in H. rewrite Rmult_assoc, Rinv_l, Rmult_1_r, Rmult_0_l in H by lra.
  exact H.
Qed.

(** X5: on finite signals of one length with a reference that is not
    constant, the error is a real number that is not negative, and it
    is zero exactly when the signal is the reference. *)
Theorem nmse_error_zero_iff_equal (xs ys : list R) :
  length xs = length ys -> mean_squared_deviation ys <> 0 ->
  exists e,
    nmse_error (map Fin xs) (map Fin ys) = Fin e
    /\ 0 <= e
    /\ (e = 0 <-> xs = ys).
Proof.
  intros Hlen Hvar.
  pose proof (mean_squared_deviation_nonneg ys) as Hv.
  pose proof (Rmean_squares_nonneg (differences xs ys)) as He.
  fold (mean_squared_error xs ys) in He.
  assert (Hpos : 0 < mean_squared_deviation ys) by lra.
  exists (mean_squared_error xs ys / mean_squared_deviation ys).
  split; [apply nmse_error_finite; assumption |].
  split.
  - apply Rmult_le_pos; [exact He | apply Rlt_le, Rinv_0_lt_compat, Hpos].
  - split.
    + intros H. apply mean_squared_error_zero; [exact Hlen | |].
      * pose proof (nonzero_deviation_nonempty ys Hvar) as Hy.
        destruct xs, ys; try discriminate; congruence.
      * apply (Rmult_eq_compat_r (mean_squared_deviation ys)) in H.
        unfold Rdiv in H.
        rewrite Rmult_assoc, Rinv_l, Rmult_1_r, Rmult_0_l in H by lra.
        exact H.
    + intros ->. rewrite mean_squared_error_self. unfold Rdiv. lra.
Qed.

Lemma nmse_error_zero_iff_equal_witness :
  exists e,
    nmse_error (map Fin [1; 2]) (map Fin [0; 2]) = Fin e
    /\ 0 <= e
    /\ (e = 0 <-> [1; 2] = [0; 2]).
Proof.
  apply (nmse_error_zero_iff_equal [1; 2] [0; 2]).
  - reflexivity.
  - exact deviation_0_2.
Defined.

End NmseMore.

Section NmseInvariance.

Local Open Scope R_scope.

Import ExtractIR.

Variables c d : R.

Lemma Rsum_affine (l : list R) :
  Rsum (map (fun x => c * x + d) l) = c * Rsum l + INR (length l) * d.
Proof.
  induction l as [| x l IH].
  - simpl. lra.
  - change (length (x :: l)) with (S (length l)). rewrite S_INR.
    simpl. rewrite IH. lra.
Qed.

Lemma Rmean_affine (l : list R) :
  l <> [] -> Rmean (map (fun x => c * x + d) l) = c * Rmean l + d.
Proof.
  intros Hl. unfold Rmean. rewrite Rsum_affine, length_map. field.
  apply not_0_INR. destruct l; [contradiction | discriminate].
Qed.

Lemma Rsum_squares_scaled (l : list R) :
  Rsum (map (fun x => x * x) (map (fun x => c * x) l))
  = c * c * Rsum (map (fun x => x * x) l).
Proof.
  induction l as [| x l IH]; simpl; [lra |]. rewrite IH. lra.
Qed.

Lemma differences_affine (xs ys : list R) :
  differences (map (fun x => c * x + d) xs) (map (fun x => c * x + d) ys)
  = map (fun x => c * x) (differences xs ys).
Proof.
  unfold differences. revert ys.
  induction xs as [| x xs IH]; intros [| y ys]; simpl; try reflexivity.
  rewrite IH. f_equal. lra.
Qed.

Lemma mean_squared_error_affine (xs ys : list R) :
  mean_squared_error (map (fun x => c * x + d) xs) (map (fun x => c * x + d) ys)
  = c * c * mean_squared_error xs ys.
Proof.
  unfold mean_squared_error, Rmean.
  rewrite differences_affine, Rsum_squares_scaled, !length_map.
  unfold Rdiv. ring.
Qed.

Lemma mean_squared_deviation_affine (ys : list R) :
  ys <> [] ->
  mean_squared_deviation (map (fun x => c * x + d) ys)
  = c * c * mean_squared_deviation ys.
Proof.
  intros Hy. unfold mean_squared_deviation. rewrite (Rmean_affine ys Hy).
  rewrite map_map.
  replace (map (fun x => (c * x + d - (c * Rmean ys + d))
                         * (c * x + d - (c * Rmean ys + d))) ys)
    with (map (fun x => x * x)
              (map (fun x => c * x) (map (fun x => x - Rmean ys) ys)))
    by (rewrite !map_map; apply map_ext; intros x; ring).
  replace (map (fun x => (x - Rmean ys) * (x - Rmean ys)) ys)
    with (map (fun x => x * x) (map (fun x => x - Rmean ys) ys))
    by (rewrite map_map; reflexivity).
  unfold Rmean at 1 3. rewrite Rsum_squares_scaled, !length_map.
  unfold Rdiv. ring.
Qed.

(** X6: the error does not change when the signal and the reference
    get one gain [c <> 0] and one offset [d]. *)
Theorem nmse_error_gain_offset (xs ys : list R) :
  length xs = length ys -> mean_squared_deviation ys <> 0 -> c <> 0 ->
  nmse_error (map Fin (map (fun x => c * x + d) xs))
             (map Fin (map (fun x => c * x + d) ys))
  = nmse_error (map Fin xs) (map Fin ys).
Proof.
  intros Hlen Hvar Hc.
  pose proof (nonzero_deviation_nonempty ys Hvar) as Hy.
  assert (Hcc : c * c <> 0) by nra.
  rewrite (nmse_error_finite xs ys Hlen Hvar).
  rewrite nmse_error_finite.
  - rewrite mean_squared_error_affine, (mean_squared_deviation_affine ys Hy).
    f_equal. field. split; assumption.
  - rewrite !length_map. exact Hlen.
  - rewrite (mean_squared_deviation_affine ys Hy). nra.
Qed.

End NmseInvariance.

Section NmseInvarianceExample.

Import ExtractIR.

Local Open Scope R_scope.

Lemma nmse_error_gain_offset_witness :
  nmse_error (map Fin (map (fun x => 3 * x + 5) [1; 2]))
             (map Fin (map (fun x => 3 * x + 5) [0; 2]))
  = nmse_error (map Fin [1; 2]) (map Fin [0; 2]).
Proof.
  apply (nmse_error_gain_offset 3 5 [1; 2] [0; 2]).
  - reflexivity.
  - exact deviation_0_2.
  - lra.
Defined.

End NmseInvarianceExample.

(** ** The search on windows no longer than the guard bands *)

Section ShortWindows.

Import ExtractIR.

Lemma slice_guard_empty {A : Type} (l : list A) (s : Z) :
  length l <= 400 -> (-200 <= s <= 199)%Z ->
  slice l (200 + s) (-200 + s) = [].
Proof.
  intros Hl Hs. unfold slice, bound.
  destruct (Z.ltb_spec (200 + s) 0) as [H1 | H1]; [lia |].
  destruct (Z.ltb_spec (-200 + s) 0) as [H2 | H2]; [| lia].
  replace (Z.to_nat (-200 + s + Z.of_nat (length l))
           - Nat.min (Z.to_nat (200 + s)) (length l)) with 0 by lia.
  reflexivity.
Qed.

Lemma nmse_error_nil : nmse_error [] [] = NaN.
Proof.
  unfold nmse_error. simpl. unfold squared_error. simpl.
  rewrite mean_nil. reflexivity.
Qed.

Lemma nan_error_dB : mul (Fin 10) (log10 NaN) = NaN.
Proof. reflexivity. Qed.

(** X7: when the device window and the reconstructed window have at
    most 400 samples, the two guard bands leave nothing to compare:
    every shift has the error [nan], and the window's result is [nan]
    with the first shift, -200. *)
Theorem analyze_window_short (win_device win_reconstructed : list num) :
  length win_device <= 400 -> length win_reconstructed <= 400 ->
  err_list win_device win_reconstructed = repeat NaN 400
  /\ analyze_window win_device win_reconstructed = Ok (NaN, (-200)%Z).
Proof.
  intros Hd Hr.
  assert (Herr : err_list win_device win_reconstructed = repeat NaN 400).
  { unfold err_list. rewrite <- shifts_length, <- map_const.
    apply map_ext_in. intros s Hs. apply In_shifts in Hs.
    rewrite (slice_guard_empty win_reconstructed s Hr Hs).
    pose proof (slice_guard_empty win_device 0 Hd ltac:(lia)) as Hdev.
    change (200 + 0)%Z with 200%Z in Hdev.
    change (-200 + 0)%Z with (-200)%Z in Hdev.
    rewrite Hdev. apply nmse_error_nil. }
  split; [exact Herr |].
  unfold analyze_window, errors. rewrite Herr, map_repeat, nan_error_dB.
  change (repeat NaN 400) with (NaN :: repeat NaN 399).
  unfold amin, argmin. rewrite argmin_scan_repeat. reflexivity.
Qed.

Lemma analyze_window_short_witness :
  analyze_window [Fin 1; Fin 2] [Fin 1; Fin 2] = Ok (NaN, (-200)%Z).
Proof.
  apply (analyze_window_short [Fin 1; Fin 2] [Fin 1; Fin 2]); simpl; lia.
Defined.

End ShortWindows.

(** ** The outcomes of the alignment analysis *)

Section Alignment.

Import ExtractIR Stages.

Local Open Scope Z_scope.

Lemma analyze_window_ok (win_device win_reconstructed : list num) :
  exists err_min err_pos,
    analyze_window win_device win_reconstructed = Ok (err_min, err_pos)
    /\ -200 <= err_pos <= 199.
Proof.
  unfold analyze_window.
  pose proof (errors_length win_device win_reconstructed) as Hlen.
  destruct (errors win_device win_reconstructed) as [| x l] eqn:E;
    [discriminate Hlen |].
  destruct (argmin_spec x l) as (pos & Harg & Hmin & Hpos & _).
  rewrite Hlen in Hpos.
  rewrite Hmin, Harg. unfold bind. rewrite item_shifts by exact Hpos.
  eexists. eexists. split; [reflexivity | lia].
Qed.

Lemma collect_map {A B : Type} (f : A -> result B) (P : B -> Prop) (l : list A) :
  (forall a, exists b, f a = Ok b /\ P b) ->
  exists bs, collect (map f l) = Ok bs /\ length bs = length l /\ Forall P bs.
Proof.
  intros Hf. induction l as [| a l (bs & Hbs & Hlen & HP)]; simpl.
  - exists []. repeat split. constructor.
  - destruct (Hf a) as (b & Hb & Pb). rewrite Hb, Hbs. simpl.
    exists (b :: bs). repeat split; [simpl; lia | constructor; assumption].
Qed.

Lemma analyze_windows_ok (device_mod reconstructed_mod : list num)
  (win_len num_windows : Z) :
  exists per_window,
    analyze_windows device_mod reconstructed_mod win_len num_windows
    = Ok per_window
    /\ length per_window = Z.to_nat num_windows
    /\ Forall (fun r => -200 <= snd r <= 199) per_window.
Proof.
  unfold analyze_windows.
  destruct (collect_map
              (fun i => analyze_window
                          (slice device_mod (i * win_len) ((i + 1) * win_len))
                          (slice reconstructed_mod (i * win_len)
                                 ((i + 1) * win_len)))
              (fun r => -200 <= snd r <= 199) (range num_windows))
    as (bs & Hbs & Hlen & HP).
  - intros i.
    destruct (analyze_window_ok
                (slice device_mod (i * win_len) ((i + 1) * win_len))
                (slice reconstructed_mod (i * win_len) ((i + 1) * win_len)))
      as (m & p & H & Hp).
    exists (m, p). split; assumption.
  - exists bs. rewrite range_length in Hlen. repeat split; assumption.
Qed.

Lemma last_In {A : Type} (x : A) (l : list A) (d : A) : In (last (x :: l) d) (x :: l).
Proof.
  revert x. induction l as [| y l IH]; intros x.
  - left. reflexivity.
  - right. apply (IH y).
Qed.

(** No window is counted exactly when the window length is negative
    or longer than the signal. *)
Lemma no_window_iff (len win_len : Z) :
  0 <= len -> win_len <> 0 ->
  (len / win_len <= 0 <-> win_len < 0 \/ len < win_len).
Proof.
  intros Hlen Hw. split.
  - intros H. destruct (Z.lt_ge_cases win_len 0) as [Hneg | Hpos]; [left; exact Hneg |].
    right. destruct (Z.lt_ge_cases len win_len) as [Hlt | Hge]; [exact Hlt |].
    assert (1 <= len / win_len) by (apply Z.div_le_lower_bound; lia). lia.
  - assert (Hneg : win_len < 0 -> len / win_len <= 0).
    { intros Hneg. pose proof (Z.div_mod len win_len Hw) as Hdm.
      pose proof (Z.mod_neg_bound len win_len Hneg) as Hb. nia. }
    intros [Hlt | Hlt]; [apply Hneg; exact Hlt |].
    destruct (Z.lt_ge_cases win_len 0) as [Hlt0 | Hpos]; [apply Hneg; exact Hlt0 |].
    rewrite Z.div_small by lia. lia.
Qed.

(** How the analysis of two speech signals ends. *)
Lemma alignment_outcome (speech_device speech_reconstructed : list num)
  (fs margin : Z) (window_duration : Q) :
  let win_len := Py.int (scale window_duration fs) in
  let len := Z.of_nat (length (speech_device_mod speech_device margin)) in
  match alignment speech_device speech_reconstructed fs margin window_duration with
  | Raise ZeroDivisionError => win_len = 0
  | Raise IndexError => win_len < 0 \/ len < win_len
  | Raise ValueError => False
  | Ok (err_min_all, _) =>
      0 < win_len <= len /\ Z.of_nat (length err_min_all) = len / win_len
  end.
Proof.
  intros win_len len. unfold alignment. fold win_len.
  destruct (Z.eqb_spec win_len 0) as [H0 | Hnz]; [exact H0 |].
  fold len.
  destruct (analyze_windows_ok (speech_device_mod speech_device margin)
              (speech_reconstructed_mod speech_reconstructed margin)
              win_len (len / win_len)) as (per & Hper & Hlen & _).
  rewrite Hper. unfold bind.
  pose proof (no_window_iff len win_len ltac:(lia) Hnz) as Hiff.
  destruct per as [| r per]; simpl slope.
  - simpl. apply Hiff. simpl in Hlen. lia.
  - simpl. simpl in Hlen. rewrite length_map.
    assert (Hpos : 0 < len / win_len) by lia.
    assert (Hnot : ~ (win_len < 0 \/ len < win_len)) by (rewrite <- Hiff; lia).
    split; lia.
Qed.

Variable convolve_same : list num -> list num -> result (list num).
Variable cplx : Type.
Variable cmul : cplx -> cplx -> cplx.
Variable creal : cplx -> num.
Variable fft : list num -> nat -> list cplx.
Variable ifft : list cplx -> list cplx.

(** [process_device_signals] is its three stages in a row. *)
Lemma process_device_signals_stages (sweep_signal : list num) (fs : Z)
  (speech_original speech_device : list num) (inv_sweep_fft : array2 cplx)
  (margin : Z) (window_duration : Q) :
  process_device_signals convolve_same cmul creal fft ifft sweep_signal fs
    speech_original speech_device inv_sweep_fft margin window_duration
  = (taps <- linear_ir cmul creal fft ifft sweep_signal inv_sweep_fft ;;
     speech_reconstructed <- convolve_same speech_original taps ;;
     alignment speech_device speech_reconstructed fs margin window_duration).
Proof.
  unfold process_device_signals, linear_ir, alignment.
  destruct (extract_ir_sweep cmul creal fft ifft (Dim1 sweep_signal) inv_sweep_fft)
    as [irs | e]; [| reflexivity].
  cbn [bind].
  destruct (ir_slice (fst irs)) as [taps | e]; reflexivity.
Qed.

(** X8: once the impulse response is extracted and the speech is
    convolved with it, [process_device_signals] ends in one of three
    ways: with [ZeroDivisionError] exactly when the window length
    [int(window_duration * fs)] is zero; with [IndexError] exactly when
    the window length is negative or longer than the cropped device
    signal, so that no window is analysed; and otherwise with one
    minimum for each of the [len // win_len] windows. *)
Theorem process_device_signals_outcome (sweep_signal : list num) (fs : Z)
  (speech_original speech_device : list num) (inv_sweep_fft : array2 cplx)
  (margin : Z) (window_duration : Q) (taps speech_reconstructed : list num) :
  linear_ir cmul creal fft ifft sweep_signal inv_sweep_fft = Ok taps ->
  convolve_same speech_original taps = Ok speech_reconstructed ->
  let win_len := Py.int (scale window_duration fs) in
  let len := Z.of_nat (length (speech_device_mod speech_device margin)) in
  match
    process_device_signals convolve_same cmul creal fft ifft sweep_signal fs
      speech_original speech_device inv_sweep_fft margin window_duration
  with
  | Raise ZeroDivisionError => win_len = 0
  | Raise IndexError => win_len < 0 \/ len < win_len
  | Raise ValueError => False
  | Ok (err_min_all, _) =>
      0 < win_len <= len /\ Z.of_nat (length err_min_all) = len / win_len
  end.
Proof.
  intros Htaps Hconv. rewrite process_device_signals_stages, Htaps.
  unfold bind at 1. rewrite Hconv. unfold bind at 1.
  apply alignment_outcome.
Qed.

End Alignment.

(** ** The result of the alignment analysis *)

Section AlignmentResult.

Import ExtractIR Stages.

Local Open Scope Z_scope.



Variable convolve_same : list num -> list num -> result (list num).
Variable cplx : Type.
Variable cmul : cplx -> cplx -> cplx.
Variable creal : cplx -> num.
Variable fft : list num -> nat -> list cplx.
Variable ifft : list cplx -> list cplx.


End AlignmentResult.

(** ** The analysis with the default margin *)

Section MarginZero.

Import ExtractIR Stages.

Local Open Scope Z_scope.

Lemma collect_const {A B : Type} (f : A -> result B) (b : B) (l : list A) :
  (forall a, In a l -> f a = Ok b) ->
  collect (map f l) = Ok (repeat b (length l)).
Proof.
  induction l as [| a l IH]; intros Hf; simpl; [reflexivity |].
  rewrite (Hf a (or_introl eq_refl)), IH; [reflexivity |].
  intros a' Ha'. apply Hf. right. exact Ha'.
Qed.

Lemma In_range_bounds (n i : Z) : In i (range n) -> 0 <= i < n.
Proof.
  unfold range. rewrite in_map_iff.
  intros (k & <- & Hk). apply in_seq in Hk. lia.
Qed.

Lemma last_repeat {A : Type} (c d : A) (n : nat) : last (repeat c (S n)) d = c.
Proof.
  induction n as [| n IH]; [reflexivity |].
  change (last (repeat c (S n)) d = c). exact IH.
Qed.

Lemma alignment_margin_zero (speech_device speech_reconstructed : list num)
  (fs : Z) (window_duration : Q) :
  let win_len := Py.int (scale window_duration fs) in
  let len := Z.of_nat (length speech_device) in
  400 < win_len <= len ->
  alignment speech_device speech_reconstructed fs 0 window_duration
  = Ok (repeat NInf (Z.to_nat (len / win_len)),
        0 # Pos.of_nat (Z.to_nat (len / win_len))).
Proof.
  intros win_len len Hw. unfold alignment. fold win_len.
  change (speech_device_mod speech_device 0) with speech_device.
  change (speech_reconstructed_mod speech_reconstructed 0) with (@nil num).
  destruct (Z.eqb_spec win_len 0) as [H0 | _]; [lia |]. fold len.
  assert (Hn : 1 <= len / win_len) by (apply Z.div_le_lower_bound; lia).
  pose proof (Z.mul_div_le len win_len ltac:(lia)) as Hfit.
  unfold analyze_windows.
  rewrite (collect_const _ (NInf, -200)).
  - rewrite range_length. unfold bind at 1.
    rewrite !map_repeat. cbn [fst snd].
    destruct (Z.to_nat (len / win_len)) as [| n] eqn:E; [lia |].
    unfold slope. change (repeat (-200) (S n)) with (-200 :: repeat (-200) n) at 1.
    cbn [bind]. rewrite repeat_length, last_repeat. reflexivity.
  - intros i Hi. apply In_range_bounds in Hi. rewrite slice_nil.
    apply analyze_window_empty_reconstruction.
    rewrite slice_length by (try fold len; nia). nia.
Qed.

Variable convolve_same : list num -> list num -> result (list num).
Variable cplx : Type.
Variable cmul : cplx -> cplx -> cplx.
Variable creal : cplx -> num.
Variable fft : list num -> nat -> list cplx.
Variable ifft : list cplx -> list cplx.

(** X10: with the margin 0, which is the default, and windows of more
    than 400 samples of which at least one fits the device signal,
    [process_device_signals] returns [-inf] as the minimum of every
    window and the slope 0, whatever the two speech signals are: the
    reconstructed signal has been emptied. *)
Theorem process_device_signals_default_margin (sweep_signal : list num) (fs : Z)
  (speech_original speech_device : list num) (inv_sweep_fft : array2 cplx)
  (window_duration : Q) (taps speech_reconstructed : list num) :
  linear_ir cmul creal fft ifft sweep_signal inv_sweep_fft = Ok taps ->
  convolve_same speech_original taps = Ok speech_reconstructed ->
  let win_len := Py.int (scale window_duration fs) in
  let len := Z.of_nat (length speech_device) in
  400 < win_len <= len ->
  process_device_signals convolve_same cmul creal fft ifft sweep_signal fs
    speech_original speech_device inv_sweep_fft 0 window_duration
  = Ok (repeat NInf (Z.to_nat (len / win_len)),
        0 # Pos.of_nat (Z.to_nat (len / win_len))).
Proof.
  intros Htaps Hconv win_len len Hw.
  rewrite process_device_signals_stages, Htaps.
  unfold bind at 1. rewrite Hconv. unfold bind at 1.
  apply alignment_margin_zero. exact Hw.
Qed.

End MarginZero.

(** ** The impulse response the speech is convolved with *)

Section LinearIR.

Import ExtractIR Stages.

Variable cplx : Type.
Variable cmul : cplx -> cplx -> cplx.
Variable creal : cplx -> num.
Variable fft : list num -> nat -> list cplx.
Variable ifft : list cplx -> list cplx.




End LinearIR.

(** ** The two halves for an inverse spectrum of one channel *)

Section SingleChannel.

Import ExtractIR Stages.

Lemma map_nth_seq {A : Type} (l : list A) (d : A) :
  map (fun j => nth j l d) (seq 0 (length l)) = l.
Proof.
  induction l as [| x l IH]; [reflexivity |].
  cbn [length]. rewrite <- cons_seq, <- seq_shift, map_cons, map_map.
  cbn [nth]. rewrite IH. reflexivity.
Qed.

Lemma flat_map_singleton {A B : Type} (f : A -> B) (l : list A) :
  flat_map (fun a => [f a]) l = map f l.
Proof.
  induction l as [| a l IH]; [reflexivity |].
  cbn [flat_map map app]. rewrite IH. reflexivity.
Qed.

(** Transposing one row changes the shape and not the items. *)
Lemma transpose_one_row {A : Type} (d : A) (a : array2 A) :
  wf a -> shape0 a = 1 ->
  transpose d a = Array2.Build (shape1 a) 1 (items a).
Proof.
  destruct a as [s0 s1 l]. unfold wf, transpose. cbn [shape0 shape1 items].
  intros Hwf ->. f_equal.
  rewrite flat_map_concat_map.
  transitivity (concat (map (fun j => [nth j l d]) (seq 0 s1))).
  - reflexivity.
  - rewrite <- flat_map_concat_map.
    replace s1 with (length l) by lia.
    rewrite flat_map_singleton. apply map_nth_seq.
Qed.

(** Rolling by half the length moves the second half to the front. *)
Lemma roll_half {A : Type} (l : list A) :
  Py.roll l (Z.of_nat (length l / 2))
  = skipn (length l - length l / 2) l ++ firstn (length l - length l / 2) l.
Proof.
  unfold Py.roll.
  destruct (length l) as [| n] eqn:E.
  - apply length_zero_iff_nil in E. subst l. reflexivity.
  - pose proof (Nat.Div0.mul_div_le (S n) 2) as Hhalf.
    rewrite Z.mod_small by lia. rewrite Nat2Z.id. reflexivity.
Qed.

(** The first column of an array of one column is its items. *)
Lemma column_of_one_column {A : Type} (d : A) (a : array2 A) :
  wf a -> shape1 a = 1 -> map (fun r => nth 0 r d) (rows a) = items a.
Proof.
  destruct a as [s0 s1 l]. unfold wf, rows, row. cbn [shape0 shape1 items].
  intros Hwf ->. rewrite Nat.mul_1_r in Hwf. subst s0.
  rewrite map_map.
  transitivity (map (fun j => nth j l d) (seq 0 (length l)));
    [| apply map_nth_seq].
  apply map_ext_in. intros i Hi. apply in_seq in Hi.
  rewrite Nat.mul_1_r.
  rewrite <- (firstn_skipn i l) at 2.
  rewrite app_nth2 by (rewrite length_firstn; lia).
  rewrite length_firstn, Nat.min_l, Nat.sub_diag by lia.
  destruct (skipn i l); reflexivity.
Qed.

Lemma skipn_length_app {A : Type} (a b : list A) :
  skipn (length a) (a ++ b) = b.
Proof. induction a as [| x a IH]; [reflexivity | exact IH]. Qed.

Lemma firstn_length_app {A : Type} (a b : list A) :
  firstn (length a) (a ++ b) = a.
Proof.
  induction a as [| x a IH]; [reflexivity |].
  cbn [length app firstn]. rewrite IH. reflexivity.
Qed.

Lemma slice_map {A B : Type} (f : A -> B) (l : list A) (a b : Z) :
  slice (map f l) a b = map f (slice l a b).
Proof.
  unfold slice. rewrite length_map, skipn_map, firstn_map. reflexivity.
Qed.

Variable cplx : Type.
Variable cmul : cplx -> cplx -> cplx.
Variable creal : cplx -> num.
Variable fft : list num -> nat -> list cplx.
Variable ifft : list cplx -> list cplx.

Hypothesis fft_length : forall x n, length (fft x n) = n.
Hypothesis ifft_length : forall v, length (ifft v) = length v.

(** X12: for a sweep of one dimension and an inverse spectrum of one
    channel and [F] bins, [ir_lin] holds the first [F - F // 2] samples
    of the deconvolution, [ir_non_lin] holds its last [F // 2] samples,
    and the impulse response the speech is convolved with is the
    samples 3000 to 5999 of the deconvolution. *)
Theorem single_channel_halves (sweep_signal : list num)
  (inv_sweep_fft : array2 cplx) (ir : array2 num) :
  wf inv_sweep_fft -> shape0 inv_sweep_fft = 1 ->
  deconvolve cmul creal fft ifft (Dim1 sweep_signal) inv_sweep_fft = Ok ir ->
  let fft_size := shape1 inv_sweep_fft in
  let k := fft_size - fft_size / 2 in
  length (items ir) = fft_size
  /\ extract_ir_sweep cmul creal fft ifft (Dim1 sweep_signal) inv_sweep_fft
     = Ok (Array2.Build k 1 (firstn k (items ir)),
           Array2.Build (fft_size / 2) 1 (skipn k (items ir)))
  /\ linear_ir cmul creal fft ifft sweep_signal inv_sweep_fft
     = Ok (slice (firstn k (items ir)) 3000 6000).
Proof.
  intros Hwf Hone Hir fft_size k.
  destruct (deconvolve_mono_wf cplx cmul creal fft ifft fft_length ifft_length
              sweep_signal inv_sweep_fft ir Hwf Hir) as (Hwfir & H0 & H1).
  rewrite Hone in H0. fold fft_size in H1.
  assert (Hlen : length (items ir) = fft_size)
    by (unfold wf in Hwfir; rewrite Hwfir, H0, H1; lia).
  pose proof (half_le fft_size) as Hhalf.
  assert (Hextract :
    extract_ir_sweep cmul creal fft ifft (Dim1 sweep_signal) inv_sweep_fft
    = Ok (Array2.Build k 1 (firstn k (items ir)),
          Array2.Build (fft_size / 2) 1 (skipn k (items ir)))).
  { unfold extract_ir_sweep. rewrite Hir. unfold bind, centered.
    rewrite (transpose_one_row Num.zero ir Hwfir H0), H1.
    unfold Array2.roll, rows_from, rows_to, len. cbn [shape0 shape1 items].
    assert (Hroll : Py.roll (items ir) (Z.of_nat (fft_size / 2))
                    = skipn k (items ir) ++ firstn k (items ir)).
    { pose proof (roll_half (items ir)) as Hr. rewrite Hlen in Hr. exact Hr. }
    rewrite Hroll, Nat.min_l, Nat.mul_1_r by exact Hhalf.
    assert (Hsk : length (skipn k (items ir)) = fft_size / 2)
      by (rewrite length_skipn; unfold k; lia).
    rewrite <- Hsk at 2 4.
    rewrite skipn_length_app, firstn_length_app. reflexivity. }
  split; [exact Hlen |]. split; [exact Hextract |].
  unfold linear_ir. rewrite Hextract. cbn [bind fst].
  unfold ir_slice. cbn [shape1 Nat.eqb].
  rewrite <- (column_of_one_column Num.zero
                (Array2.Build k 1 (firstn k (items ir)))) at 2.
  - cbn [items]. rewrite slice_map. reflexivity.
  - unfold wf. cbn [shape0 shape1 items]. rewrite length_firstn. lia.
  - reflexivity.
Qed.

End SingleChannel.

(** ** Examples of the analysis *)

Section AnalysisExamples.

Import ExtractIR Stages.

Local Open Scope Z_scope.

Lemma sample_fft_length (x : list num) (n : nat) : length (Sample.fft x n) = n.
Proof.
  unfold Sample.fft. rewrite length_firstn, length_app, repeat_length. lia.
Qed.

Lemma sample_linear_ir (sweep_signal : list num) :
  linear_ir Sample.cmul Sample.creal Sample.fft Sample.ifft sweep_signal
    (Sample.inv_sweep_fft 4) = Ok [].
Proof. reflexivity. Qed.

(** A window of zero samples. *)
Lemma process_device_signals_outcome_witness :
  process_device_signals Sample.convolve_same Sample.cmul Sample.creal
    Sample.fft Sample.ifft [Fin 1; Fin 2; Fin 3; Fin 4] 1
    [Fin 1] [Fin 1] (Sample.inv_sweep_fft 4) 0 (0 # 1)
  = Raise ZeroDivisionError.
Proof.
  pose proof (process_device_signals_outcome Sample.convolve_same num
                Sample.cmul Sample.creal Sample.fft Sample.ifft
                [Fin 1; Fin 2; Fin 3; Fin 4] 1 [Fin 1] [Fin 1]
                (Sample.inv_sweep_fft 4) 0 (0 # 1) [] [Fin 1]
                (sample_linear_ir _) eq_refl) as H.
  cbv zeta in H. change (Py.int (scale (0 # 1) 1)) with 0 in H.
  destruct (process_device_signals _ _ _ _ _ _ _ _ _ _ _ _)
    as [[err_min_all sl] | [ | | ]].
  - lia.
  - reflexivity.
  - exfalso. lia.
  - contradiction.
Defined.


(** One window of 401 samples with the margin 0. *)
Lemma process_device_signals_default_margin_witness :
  process_device_signals Sample.convolve_same Sample.cmul Sample.creal
    Sample.fft Sample.ifft [Fin 1; Fin 2; Fin 3; Fin 4] 1
    (repeat (Fin 1) 401) (repeat (Fin 1) 401) (Sample.inv_sweep_fft 4)
    0 (401 # 1)
  = Ok ([NInf], 0 # 1).
Proof.
  apply (process_device_signals_default_margin Sample.convolve_same num
           Sample.cmul Sample.creal Sample.fft Sample.ifft
           [Fin 1; Fin 2; Fin 3; Fin 4] 1 (repeat (Fin 1) 401)
           (repeat (Fin 1) 401) (Sample.inv_sweep_fft 4) (401 # 1) []
           (repeat (Fin 1) 401) (sample_linear_ir _) eq_refl).
  rewrite repeat_length. change (Py.int (scale (401 # 1) 1)) with 401. lia.
Defined.

(** A sweep of four samples against a spectrum of four bins: the first
    two samples are [ir_lin] and the last two are [ir_non_lin]. *)
Lemma single_channel_halves_witness :
  extract_ir_sweep Sample.cmul Sample.creal Sample.fft Sample.ifft
    (Dim1 [Fin 1; Fin 2; Fin 3; Fin 4]) (Sample.inv_sweep_fft 4)
  = Ok (Array2.Build 2 1 [Fin 1; Fin 2], Array2.Build 2 1 [Fin 3; Fin 4]).
Proof.
  apply (single_channel_halves num Sample.cmul Sample.creal Sample.fft
           Sample.ifft sample_fft_length (fun v => eq_refl)
           [Fin 1; Fin 2; Fin 3; Fin 4] (Sample.inv_sweep_fft 4)
           (Array2.Build 1 4 [Fin 1; Fin 2; Fin 3; Fin 4])).
  - reflexivity.
  - reflexivity.
  - reflexivity.
Defined.

End AnalysisExamples.

(** ** The windows of the channel response extractor, continued *)

Section WindowsMore.

Import ChannelResponse.

Local Open Scope Z_scope.

(** A slice between two bounds that are not negative. *)
Lemma slice_firstn_skipn {A : Type} (l : list A) (a b : Z) :
  0 <= a <= b ->
  slice l a b = firstn (Z.to_nat (b - a)) (skipn (Z.to_nat a) l).
Proof.
  intros H. unfold slice, bound.
  destruct (Z.ltb_spec a 0) as [Ha | _]; [lia |].
  destruct (Z.ltb_spec b 0) as [Hb | _]; [lia |].
  destruct (Nat.le_gt_cases (length l) (Z.to_nat a)) as [Hout | Hin].
  - rewrite !Nat.min_r by lia.
    rewrite skipn_all, (skipn_all2 l) by lia. rewrite !firstn_nil.
    reflexivity.
  - rewrite (Nat.min_l (Z.to_nat a)) by lia.
    destruct (Nat.le_gt_cases (Z.to_nat b) (length l)) as [Hb | Hb].
    + rewrite Nat.min_l by lia. f_equal. lia.
    + rewrite Nat.min_r by lia.
      rewrite !firstn_all2 by (rewrite length_skipn; lia). reflexivity.
Qed.

(** X13: when the step is positive and the overlap is not negative, the
    window of index [idx] is the [window_samples] samples that follow
    the first [idx * step_size] samples of the signal, as many of them
    as there are; and what follows the first [step_size] samples of a
    window is the first [overlap_samples] samples of the next window. *)
Theorem consecutive_windows_overlap (signal : list num)
  (signal_duration overlap_fraction : Q) (sample_rate idx : Z) :
  let window := window_samples signal_duration sample_rate in
  let overlap := overlap_samples overlap_fraction sample_rate in
  let step := step_size signal_duration overlap_fraction sample_rate in
  0 < step -> 0 <= overlap -> 0 <= idx ->
  windowed_signal signal signal_duration overlap_fraction sample_rate idx
  = firstn (Z.to_nat window) (skipn (Z.to_nat (idx * step)) signal)
  /\ skipn (Z.to_nat step)
       (windowed_signal signal signal_duration overlap_fraction sample_rate idx)
     = firstn (Z.to_nat overlap)
         (windowed_signal signal signal_duration overlap_fraction sample_rate
            (idx + 1)).
Proof.
  intros window overlap step Hstep Hoverlap Hidx.
  assert (Hwin : window = step + overlap)
    by (unfold step, step_size; fold window overlap; lia).
  assert (Hw : forall i, 0 <= i ->
            windowed_signal signal signal_duration overlap_fraction sample_rate i
            = firstn (Z.to_nat window) (skipn (Z.to_nat (i * step)) signal)).
  { intros i Hi. unfold windowed_signal. fold step. fold window.
    rewrite slice_firstn_skipn by nia. f_equal. lia. }
  split; [apply Hw; exact Hidx |].
  rewrite !Hw by lia.
  rewrite skipn_firstn_comm, skipn_skipn, firstn_firstn.
  replace (Z.to_nat step + Z.to_nat (idx * step))%nat
    with (Z.to_nat ((idx + 1) * step)) by nia.
  f_equal. lia.
Qed.

Lemma consecutive_windows_overlap_witness :
  skipn 3 (windowed_signal [Fin 1; Fin 2; Fin 3; Fin 4; Fin 5; Fin 6; Fin 7]
             (2 # 1) (1 # 2) 2 0)
  = firstn 1 (windowed_signal [Fin 1; Fin 2; Fin 3; Fin 4; Fin 5; Fin 6; Fin 7]
                (2 # 1) (1 # 2) 2 1).
Proof.
  apply (consecutive_windows_overlap
           [Fin 1; Fin 2; Fin 3; Fin 4; Fin 5; Fin 6; Fin 7]
           (2 # 1) (1 # 2) 2 0); [reflexivity | discriminate | discriminate].
Defined.

End WindowsMore.

(** ** The channel response stays under the threshold *)

Section UnderThreshold.

Import ChannelResponse.

Local Open Scope R_scope.






Variable cplx : Type.
Variable cabs : cplx -> num.
Variable stft : list num -> forall n_fft hop_length win_length : nat, array2 cplx.


End UnderThreshold.

(** ** The outcomes of the channel response extractor *)

Section ExtractorOutcome.

Import ChannelResponse.

Local Open Scope Z_scope.

Variable cplx : Type.
Variable cabs : cplx -> num.
Variable preemphasis : list num -> list num.
Variable stft : list num -> forall n_fft hop_length win_length : nat, array2 cplx.


End ExtractorOutcome.

(** ** The names of the saved arrays *)

Section Names.

Import Naming ChannelResponse.

Local Open Scope char_scope.

Lemma split_not_nil (c : ascii) (s : path) : split c s <> [].
Proof.
  destruct s as [| a s]; simpl; [discriminate |].
  destruct (Ascii.eqb a c); [discriminate |].
  destruct (split c s); discriminate.
Qed.

Lemma split_length (s : path) : length (split "/" s) = S (slashes s).
Proof.
  unfold slashes. induction s as [| a s IH]; [reflexivity |].
  cbn [split count_occ].
  destruct (Ascii.eqb_spec a "/") as [-> | Hne].
  - destruct (ascii_dec "/" "/") as [_ | H]; [| contradiction].
    cbn [length]. rewrite IH. reflexivity.
  - destruct (ascii_dec a "/") as [H | _]; [contradiction |].
    pose proof (split_not_nil "/" s) as Hnil.
    destruct (split "/" s) as [| w ws]; [contradiction |]. exact IH.
Qed.

(** No piece of a split holds the separator. *)
Lemma split_pieces (c : ascii) (s : path) :
  Forall (fun w => ~ In c w) (split c s).
Proof.
  induction s as [| a s IH]; cbn [split].
  - constructor; [intros [] | constructor].
  - destruct (Ascii.eqb_spec a c) as [-> | Hne].
    + constructor; [intros [] | exact IH].
    + destruct (split c s) as [| w ws]; [constructor; [| constructor] |].
      * intros [H | []]. contradiction.
      * inversion IH as [| ? ? Hw Hws]; subst.
        constructor; [| exact Hws].
        intros [H | H]; [contradiction | exact (Hw H)].
Qed.

(** The first piece of a split is the start of the string. *)
Lemma split_first_prefix (c : ascii) (s : path) :
  exists rest, s = hd [] (split c s) ++ rest.
Proof.
  induction s as [| a s (rest & IH)]; cbn [split].
  - exists []. reflexivity.
  - destruct (Ascii.eqb a c).
    + exists (a :: s). reflexivity.
    + pose proof (split_not_nil c s) as Hnil.
      destruct (split c s) as [| w ws]; [contradiction |].
      exists rest. cbn [hd] in *. cbn [app]. rewrite <- IH. reflexivity.
Qed.

Lemma device_outcome (signal_path : path) :
  match device signal_path with
  | Ok d => 2 <= slashes signal_path /\ ~ In "/" d
  | Raise e => slashes signal_path < 2 /\ e = IndexError
  end.
Proof.
  unfold device, item_from_end. rewrite split_length.
  destruct (Nat.ltb_spec (S (slashes signal_path)) 3) as [H | H];
    [split; [lia | reflexivity] |].
  unfold item.
  destruct (nth_error (split "/" signal_path) (S (slashes signal_path) - 3))
    as [d |] eqn:E.
  - split; [lia |]. apply nth_error_In in E.
    pose proof (split_pieces "/" signal_path) as Hp.
    rewrite Forall_forall in Hp. apply Hp. exact E.
  - apply nth_error_None in E. rewrite split_length in E. lia.
Qed.

Lemma basename_no_slash (p : path) : ~ In "/" (basename p).
Proof.
  unfold basename.
  pose proof (split_pieces "/" p) as Hp. rewrite Forall_forall in Hp.
  pose proof (split_not_nil "/" p) as Hnil.
  destruct (split "/" p) as [| w ws]; [contradiction |].
  apply Hp. apply last_In.
Qed.

Lemma speaker_clean (signal_path : path) :
  ~ In "/" (speaker signal_path) /\ ~ In "." (speaker signal_path).
Proof.
  unfold speaker. split.
  - destruct (split_first_prefix "." (basename signal_path)) as [rest H].
    intros Hin. apply (basename_no_slash signal_path).
    rewrite H. apply in_or_app. left. exact Hin.
  - pose proof (split_pieces "." (basename signal_path)) as Hp.
    pose proof (split_not_nil "." (basename signal_path)) as Hnil.
    destruct (split "." (basename signal_path)) as [| w ws]; [contradiction |].
    inversion Hp; assumption.
Qed.

Lemma uint_no_slash (d : Decimal.uint) :
  ~ In "/" (String.list_ascii_of_string (DecimalString.NilEmpty.string_of_uint d)).
Proof.
  induction d; simpl; intros H; try contradiction;
    destruct H as [H | H]; try discriminate H; exact (IHd H).
Qed.

Lemma str_no_slash (n : Z) : ~ In "/" (str n).
Proof.
  unfold str, DecimalString.NilZero.string_of_int,
    DecimalString.NilZero.string_of_uint.
  destruct (Z.to_int n) as [d | d]; destruct d;
    try (simpl; intros H; repeat (destruct H as [H | H]; try discriminate H);
         try contradiction; exact (uint_no_slash _ H)).
Qed.

Lemma str_inj (i j : Z) : str i = str j -> i = j.
Proof.
  unfold str. intros H.
  apply (f_equal String.string_of_list_ascii) in H.
  rewrite !String.string_of_list_ascii_of_string in H.
  apply DecimalZ.to_int_inj.
  assert (Hnil : forall n, Z.to_int n <> Decimal.Pos Decimal.Nil
                           /\ Z.to_int n <> Decimal.Neg Decimal.Nil).
  { intros [| p | p]; simpl; split; try discriminate;
      intros E; injection E as E;
      exact (DecimalPos.Unsigned.to_uint_nonnil p E). }
  destruct (Hnil i) as [Hi1 Hi2]. destruct (Hnil j) as [Hj1 Hj2].
  pose proof (DecimalString.NilZero.isi (Z.to_int i) Hi1 Hi2) as Ei.
  pose proof (DecimalString.NilZero.isi (Z.to_int j) Hj1 Hj2) as Ej.
  rewrite H in Ei. rewrite Ei in Ej. injection Ej as Ej. exact Ej.
Qed.

Lemma file_name_no_slash (d sp : path) (window_idx : Z) :
  ~ In "/" d -> ~ In "/" sp -> ~ In "/" (file_name d sp window_idx).
Proof.
  intros Hd Hs. unfold file_name. intros H.
  repeat (apply in_app_or in H; destruct H as [H | H]);
    try (exact (Hd H)); try (exact (Hs H));
    try (exact (str_no_slash _ H));
    simpl in H; repeat (destruct H as [H | H]; try discriminate H);
    contradiction.
Qed.

Lemma join_relative (a b : path) :
  ~ In "/" b -> join a b = folder_prefix a ++ b.
Proof.
  intros Hb. unfold join, folder_prefix.
  destruct b as [| c b].
  - destruct a as [| x a]; [reflexivity |].
    destruct (ends_with_slash (x :: a)); [reflexivity |].
    rewrite <- app_assoc. reflexivity.
  - destruct (Ascii.eqb_spec c "/") as [-> | _].
    + exfalso. apply Hb. left. reflexivity.
    + destruct a as [| x a]; [reflexivity |].
      destruct (ends_with_slash (x :: a)); [reflexivity |].
      rewrite <- app_assoc. reflexivity.
Qed.

(** X16: the path an array is saved under exists exactly when the
    signal path has at least two slashes, and [IndexError] is raised
    otherwise.  The path is the output folder followed by a file name
    without any slash: a file directly in the output folder, whatever
    the signal path is. *)
Theorem save_path_in_folder (output_folder signal_path : path) (window_idx : Z) :
  match save_path output_folder signal_path window_idx with
  | Ok p =>
      2 <= slashes signal_path
      /\ exists name,
           p = folder_prefix output_folder ++ name /\ ~ In "/" name
  | Raise e => slashes signal_path < 2 /\ e = IndexError
  end.
Proof.
  unfold save_path.
  pose proof (device_outcome signal_path) as Hd.
  destruct (device signal_path) as [d | e]; cbn [bind]; [| exact Hd].
  destruct Hd as [Hs Hd]. split; [exact Hs |].
  destruct (speaker_clean signal_path) as [Hsp _].
  exists (file_name d (speaker signal_path) window_idx).
  pose proof (file_name_no_slash d (speaker signal_path) window_idx Hd Hsp) as Hn.
  split; [apply join_relative; exact Hn | exact Hn].
Qed.

(** X17: the windows of one file are saved under different paths. *)
Theorem save_path_window_injective (output_folder signal_path : path)
  (i j : Z) (p : path) :
  save_path output_folder signal_path i = Ok p ->
  save_path output_folder signal_path j = Ok p ->
  i = j.
Proof.
  unfold save_path.
  pose proof (device_outcome signal_path) as Hd.
  destruct (device signal_path) as [d | e]; cbn [bind]; [| discriminate].
  destruct Hd as [_ Hd].
  destruct (speaker_clean signal_path) as [Hsp _].
  rewrite !join_relative by (apply file_name_no_slash; assumption).
  intros [= <-] [= H].
  apply app_inv_head in H. unfold file_name in H.
  repeat apply app_inv_head in H.
  apply app_inv_tail in H. apply str_inj. symmetry. exact H.
Qed.

End Names.

(** ** The files saved for one signal *)

Section SavedFiles.

Import Naming ChannelResponse.

Local Open Scope Z_scope.



Variable cplx : Type.
Variable cabs : cplx -> num.
Variable preemphasis : list num -> list num.
Variable stft : list num -> forall n_fft hop_length win_length : nat, array2 cplx.


End SavedFiles.

Section NamesExamples.

Import Naming.

Local Open Scope char_scope.

(** The first two windows of a file three folders deep. *)
Lemma save_path_window_injective_witness : (0 = 0)%Z.
Proof.
  apply (save_path_window_injective ["o"; "u"; "t"]
           ["a"; "/"; "b"; "/"; "c"; "."; "w"; "a"; "v"] 0 0
           ["o"; "u"; "t"; "/"; "a"; "_"; "c"; "_"; "w"; "i"; "n"; "_"; "0";
            "."; "n"; "p"; "y"]);
    reflexivity.
Defined.

End NamesExamples.

(** ** nan_helper *)

Section NanHelperFacts.

Import NanHelper.

Lemma nonzero_from_length (i : nat) (mask : list bool) :
  length (nonzero_from i mask) = length (filter (fun b : bool => b) mask).
Proof.
  revert i. induction mask as [| b mask IH]; intros i; [reflexivity |].
  destruct b; simpl; rewrite IH; reflexivity.
Qed.

Lemma fill_length (array : list num) (mask : list bool) (values : list num) :
  length (fill array mask values) = length array.
Proof.
  revert mask values.
  induction array as [| a array IH]; intros [| b mask] values; try reflexivity.
  destruct b; [destruct values as [| v values] |]; simpl; rewrite IH; reflexivity.
Qed.

(** Where the mask does not hold, the item stays. *)
Lemma fill_keeps (array : list num) (mask : list bool) (values : list num)
  (i : nat) (a : num) :
  nth_error array i = Some a -> nth_error mask i = Some false ->
  nth_error (fill array mask values) i = Some a.
Proof.
  revert mask values i.
  induction array as [| x array IH]; intros [| b mask] values i Ha Hm;
    try (destruct i; discriminate).
  destruct i as [| i].
  - simpl in *. injection Hm as ->. exact Ha.
  - simpl in Ha, Hm.
    destruct b; [destruct values as [| v values] |]; simpl; apply IH; assumption.
Qed.

(** Where the mask holds are the values, when there is one for each
    place. *)
Lemma select_fill (array : list num) (mask : list bool) (values : list num) :
  length mask = length array ->
  length values = length (filter (fun b : bool => b) mask) ->
  select (fill array mask values) mask = values.
Proof.
  revert mask values.
  induction array as [| a array IH]; intros [| b mask] values Hm Hv;
    try discriminate.
  - destruct values; [reflexivity | discriminate].
  - simpl in Hm. destruct b; simpl in Hv |- *.
    + destruct values as [| v values]; [discriminate |].
      simpl. rewrite IH by (simpl in Hv; lia). reflexivity.
    + apply IH; lia.
Qed.

(** Without a place to fill nothing changes. *)
Lemma fill_nothing (array : list num) (mask : list bool) (values : list num) :
  filter (fun b : bool => b) mask = [] -> fill array mask values = array.
Proof.
  revert mask values.
  induction array as [| a array IH]; intros [| b mask] values H; try reflexivity.
  destruct b; [discriminate |]. simpl in *. rewrite IH by exact H. reflexivity.
Qed.

Variable interp : list nat -> list nat -> list num -> result (list num).

(** [np.interp] returns a value for each point it is asked for. *)
Hypothesis interp_length :
  forall x xp fp values, interp x xp fp = Ok values -> length values = length x.

(** X19: when the interpolation succeeds, [nan_helper] returns an array
    of the length of its input in which every item that is not [nan] is
    the item of the input, and the places of the [nan] items hold the
    interpolated values in their order; an input without [nan] is
    returned as it is.  [nan_helper] fails exactly when the
    interpolation does. *)
Theorem nan_helper_fills (array : list num) :
  let nan_indices := map is_nan array in
  let not_nan_indices := map negb nan_indices in
  match
    interp (nonzero nan_indices) (nonzero not_nan_indices)
           (select array not_nan_indices)
  with
  | Ok values =>
      exists filled,
        nan_helper interp array = Ok filled
        /\ length filled = length array
        /\ (forall i a, nth_error array i = Some a -> is_nan a = false ->
                        nth_error filled i = Some a)
        /\ select filled nan_indices = values
        /\ (existsb is_nan array = false -> filled = array)
  | Raise e => nan_helper interp array = Raise e
  end.
Proof.
  intros nan_indices not_nan_indices. unfold nan_helper.
  fold nan_indices. fold not_nan_indices.
  destruct (interp (nonzero nan_indices) (nonzero not_nan_indices)
                   (select array not_nan_indices)) as [values | e] eqn:E;
    [| reflexivity].
  apply interp_length in E. unfold nonzero in E.
  rewrite nonzero_from_length in E.
  cbn [bind]. unfold assign_masked. rewrite E, Nat.eqb_refl.
  exists (fill array nan_indices values).
  split; [reflexivity |]. split; [apply fill_length |].
  split; [| split].
  - intros i a Ha Hnan. apply fill_keeps; [exact Ha |].
    unfold nan_indices. rewrite nth_error_map, Ha. simpl. rewrite Hnan.
    reflexivity.
  - apply select_fill; [unfold nan_indices; apply length_map | exact E].
  - intros Hnone. apply fill_nothing.
    unfold nan_indices. clear - Hnone.
    induction array as [| a array IH]; [reflexivity |].
    simpl in Hnone. apply orb_false_iff in Hnone. destruct Hnone as [Ha Hrest].
    simpl. rewrite Ha. apply IH. exact Hrest.
Qed.

End NanHelperFacts.

Section NanHelperExample.

Import NanHelper.

Lemma sample_interp_length (x xp : list nat) (fp values : list num) :
  Sample.interp x xp fp = Ok values -> length values = length x.
Proof. intros [= <-]. apply length_map. Qed.

(** The array [1, nan, 3] with zeros for the interpolated values. *)
Lemma nan_helper_fills_witness :
  exists filled,
    nan_helper Sample.interp [Fin 1; NaN; Fin 3] = Ok filled
    /\ length filled = 3
    /\ nth_error filled 0 = Some (Fin 1)
    /\ nth_error filled 2 = Some (Fin 3).
Proof.
  destruct (nan_helper_fills Sample.interp sample_interp_length
              [Fin 1; NaN; Fin 3])
    as (filled & Hfilled & Hlen & Hkeep & _).
  exists filled. split; [exact Hfilled |]. split; [exact Hlen |].
  split; apply Hkeep; reflexivity.
Defined.

End NanHelperExample.
